(** * hydra-provisioner: the reconciliation run of [hydra_provisioner/__main__.py]

    A shallow embedding of [main] and its helpers.  The script is Python 3
    (its [main] carries a return annotation).  Python objects that the run
    mutates (deployments) live in a store indexed by handles; sets of
    deployments are sets of handles; dictionaries are finite maps, except
    the one that is changed while its keys are visited; every uncaught
    Python exception is a [Raise].  The deployment engine (nixops) and the
    standard-library calls whose outcome the program cannot know in advance
    are parameters of the development. *)

From Stdlib Require Import Ascii.
From stdpp Require Import gmap strings list pretty.

Open Scope string_scope.
Open Scope Z_scope.

(** ** Exceptions *)

Inductive exn :=
| CalledProcessError
| ValueError
| KeyError (key : string)
| TypeError
| AttributeError
| RuntimeError
| AssertionError
| ZeroDivisionError
| OverflowError.

(** What a piece of the program does: it returns, it raises, or (for the
    loops that the source writes without a bound) the model gives up after
    the number of rounds it was allowed. *)
Inductive result (A : Type) :=
| Ok (a : A)
| Raise (e : exn)
| OutOfFuel.
Arguments Ok {A} a.
Arguments Raise {A} e.
Arguments OutOfFuel {A}.

Global Instance result_ret : MRet result := λ A a, Ok a.
Global Instance result_bind : MBind result := λ A B f r,
  match r with
  | Ok a => f a
  | Raise e => Raise e
  | OutOfFuel => OutOfFuel
  end.

(** A [for] loop whose body may raise. *)
Fixpoint foldM {A B} (f : A → B → result A) (a : A) (l : list B) : result A :=
  match l with
  | [] => Ok a
  | b :: l' => a' ← f a b; foldM f a' l'
  end.

(** The same loop when the body depends on the number of the round. *)
Fixpoint foldMi {A B} (f : nat → A → B → result A) (i : nat) (a : A) (l : list B)
    : result A :=
  match l with
  | [] => Ok a
  | b :: l' => a' ← f i a b; foldMi f (S i) a' l'
  end.

(** What a call of the deployment engine gives: it returns or it raises. *)
Inductive reply (A : Type) :=
| Returns (a : A)
| Raises (e : exn).
Arguments Returns {A} a.
Arguments Raises {A} e.

Definition of_reply {A} (r : reply A) : result A :=
  match r with
  | Returns a => Ok a
  | Raises e => Raise e
  end.

(** ** Python string operations used by the program *)

Module Str.

(** [s.startswith(p)] *)
Definition startswith (s p : string) : bool := String.prefix p s.

(** [s.replace(old, new)] for a non-empty [old]: occurrences are replaced
    from left to right and do not overlap.  [skip] counts the characters
    of an occurrence still to be dropped. *)
Fixpoint replace_go (old new : string) (skip : nat) (s : string) : string :=
  match s with
  | EmptyString => EmptyString
  | String c s' =>
      match skip with
      | S k => replace_go old new k s'
      | O =>
          if String.prefix old s
          then new +:+ replace_go old new (String.length old - 1) s'
          else String c (replace_go old new 0 s')
      end
  end.

Definition replace (s old new : string) : string := replace_go old new 0 s.

(** [c in s] for a one-character [c] *)
Fixpoint contains (c : ascii) (s : string) : bool :=
  match s with
  | EmptyString => false
  | String a s' => if decide (a = c) then true else contains c s'
  end.

(** [s.split(c)]: every separator starts a new field, empty fields are
    kept, and the empty string gives one empty field. *)
Fixpoint split (c : ascii) (s : string) : list string :=
  match s with
  | EmptyString => [EmptyString]
  | String a s' =>
      if decide (a = c) then EmptyString :: split c s'
      else match split c s' with
           | h :: t => String a h :: t
           | [] => [String a EmptyString]
           end
  end.

(** [s.split(c, 1)] on a string that contains [c]: the text before the
    first separator and the text after it. *)
Fixpoint split1 (c : ascii) (s : string) : string * string :=
  match s with
  | EmptyString => (EmptyString, EmptyString)
  | String a s' =>
      if decide (a = c) then (EmptyString, s')
      else let '(h, t) := split1 c s' in (String a h, t)
  end.

(** [sep.join(l)] *)
Definition join (sep : string) (l : list string) : string := String.concat sep l.

(** [str(n)] for an integer *)
Definition of_int (n : Z) : string := pretty n.
Definition of_nat (n : nat) : string := pretty n.

End Str.

(** ** Data model *)

(** [nixops.resources.ResourceState] *)
Inductive ResourceState :=
| UNKNOWN | MISSING | STARTING | UP | STOPPING | STOPPED | UNREACHABLE | RESCUE.

Global Instance ResourceState_eq_dec : EqDecision ResourceState.
Proof. solve_decision. Defined.

(** The machine resource of a deployment, as far as the program reads it.
    [next_charge_time] and [public_host_key] may be [None]. *)
Record Machine := {
  state : ResourceState;
  ssh_name : string;
  public_host_key : option string;
  next_charge_time : option Z
}.

(** A deployment object.  [name] is [None] until it is assigned; [args]
    holds Nix expressions as text; [machines] is the dictionary of machine
    resources, of which the program only reads the key ["machine"]. *)
Record Deployment := {
  name : option string;
  args : gmap string string;
  machines : gmap string Machine;
  nix_exprs : list string;
  nix_path : list string;
  extra_nix_path : list string
}.

(** Deployments are Python objects compared by identity: a handle names the
    object and the store holds its current contents. *)
Abbreviation Store := (gmap nat Deployment).

(** One entry of [config["systemTypes"]].  Only [nixopsExpr] is read with
    [type_config["nixopsExpr"]]; every other key is read with [.get] and a
    default, so it may be absent.  An entry therefore is never the empty
    dictionary, and [not type_config] holds for a missing entry only. *)
Record TypeConfig := {
  nixopsExpr : string;
  nixPath : option (list string);
  runnablesPerMachine : option Z;
  ignoredRunnables : option Z;
  minMachines : option Z;
  maxMachines : option Z;
  gracePeriod : option Z;
  stopOnIdle : option bool;
  sshKey : option string;
  maxJobs : option Z;
  speedFactor : option Z
}.

Record Config := {
  tag_opt : option string;
  systemTypes : gmap string TypeConfig
}.

(** One entry of [status["machineTypes"]]. *)
Record TypeStatus := {
  runnable : Z;
  lastActive : option Z
}.

(** The status dictionary as the passes after the folding read it.  The keys
    ["uptime"] and ["machines"] are read with [status[...]] only where a
    pass needs them, so a document may lack them.  An entry of [machines]
    is a JSON object with integer fields, of which the program reads
    ["currentJobs"]. *)
Record Status := {
  uptime : option Z;
  machineTypes : gmap string TypeStatus;
  machine_stats : option (gmap string (gmap string Z))
}.

(** ** Helpers of the module *)

(** [config.get("tag", "hydra-provisioned")] *)
Definition tag (config : Config) : string :=
  default "hydra-provisioned" (tag_opt config).

Definition the_quote : string := String (ascii_of_nat 34) EmptyString.

(** [get_depl_arg(depl, key, default="")] *)
Definition get_depl_arg (depl : Deployment) (key : string) : string :=
  let s := default "" (args depl !! key) in
  Str.replace s the_quote "".

(** [get_depl_time_left(depl)]: a missing machine, a missing charge time and
    a charge time of [0] are all falsy. *)
Definition get_depl_time_left (now : Z) (depl : Deployment) : Z :=
  match machines depl !! "machine" with
  | None => 0
  | Some m =>
      match next_charge_time m with
      | None => 0
      | Some t => if decide (t = 0) then 0 else Z.max (t - now) 0
      end
  end.

(** [depl_state(depl)] *)
Definition depl_state (depl : Deployment) : ResourceState :=
  match machines depl !! "machine" with
  | Some machine => state machine
  | None => MISSING
  end.

(** [get_new_deployment_name(prefix, depls)].  The source loops until a free
    name is found; [find_name] runs the same loop for at most [fuel] rounds,
    starting from the counter [i]. *)
Definition candidate (prefix : string) (i : nat) : string :=
  prefix +:+ "-" +:+ Str.of_nat i.

Fixpoint find_name (fuel : nat) (prefix : string) (names : list (option string))
    (i : nat) : result string :=
  match fuel with
  | O => OutOfFuel
  | S fuel' =>
      let name := candidate prefix i in
      if decide (Some name ∈ names) then find_name fuel' prefix names (S i)
      else Ok name
  end.

Definition get_new_deployment_name (prefix : string) (depls : list Deployment)
    : result string :=
  let names := name <$> depls in
  find_name (S (length names)) prefix names 0.

(** ** Sizer (lines 103-107) *)

(** The ceiling of [a / b] for integers, [b] positive. *)
Definition ceil_div (a b : Z) : Z := - ((- a) / b).

(** *** Python floats

    A Python [float] is an IEEE 754 binary64 number: 53 significant bits,
    exponents of the last bit from [-1074] on, magnitudes below [2^1024],
    every operation rounded to the nearest number, ties to the even
    mantissa.  A finite float is held as the pair of an integer and an
    exponent, [mant * 2^expo]; the overflow to infinity is what
    [overflows] tests. *)
Record double := { mant : Z; expo : Z }.

(** The integer nearest to [n / d], ties to even ([n >= 0], [d > 0]). *)
Definition rne (n d : Z) : Z :=
  let q := n / d in
  let r := n `mod` d in
  if decide (2 * r < d) then q
  else if decide (d < 2 * r) then q + 1
  else if Z.even q then q else q + 1.

(** The [k] with [2^k <= n / d < 2^(k+1)] ([n], [d] positive). *)
Definition ilog2 (n d : Z) : Z :=
  let k := Z.log2 n - Z.log2 d in
  if decide (d * 2 ^ Z.log2 n ≤ n * 2 ^ Z.log2 d) then k else k - 1.

(** The float nearest to [n / d] ([n], [d] positive): 53 bits from the
    leading one, or fewer when the quotient is subnormal. *)
Definition nearest (n d : Z) : double :=
  let e := Z.max (ilog2 n d - 52) (-1074) in
  {| mant := rne (n * 2 ^ Z.max (- e) 0) (d * 2 ^ Z.max e 0); expo := e |}.

Definition overflows (x : double) : bool :=
  bool_decide (0 ≤ expo x ∧ 2 ^ 1024 ≤ Z.abs (mant x) * 2 ^ expo x).

(** [float(n)] for an integer [n]: an integer of at most 53 bits is
    itself, a longer one is rounded, and one that rounds to [2^1024] or
    beyond raises [OverflowError]. *)
Definition float_of_int (n : Z) : result double :=
  let e := Z.max (Z.log2 (Z.abs n) - 52) 0 in
  let x := {| mant := Z.sgn n * rne (Z.abs n) (2 ^ e); expo := e |} in
  if overflows x then Raise OverflowError else Ok x.

(** The quotient of two floats, the divisor not zero. *)
Definition quotient (x y : double) : double :=
  let n := Z.abs (mant x) * 2 ^ Z.max (expo x - expo y) 0 in
  let d := Z.abs (mant y) * 2 ^ Z.max (expo y - expo x) 0 in
  if decide (n = 0) then {| mant := 0; expo := 0 |}
  else {| mant := Z.sgn (mant x) * Z.sgn (mant y) * mant (nearest n d);
          expo := expo (nearest n d) |}.

(** [a / y] for an integer [a] and a float [y]: [a] is converted first,
    then a zero divisor raises [ZeroDivisionError]. *)
Definition truediv (a : Z) (y : double) : result double :=
  x ← float_of_int a;
  if decide (mant y = 0) then Raise ZeroDivisionError else Ok (quotient x y).

(** [math.ceil(x)]: an integer; an infinite [x] raises [OverflowError]. *)
Definition math_ceil (x : double) : result Z :=
  if overflows x then Raise OverflowError
  else if decide (0 ≤ expo x) then Ok (mant x * 2 ^ expo x)
  else Ok (ceil_div (mant x) (2 ^ (- expo x))).

(** Line 106: [int(math.ceil(a / float(b)))]. *)
Definition float_ceil_div (a b : Z) : result Z :=
  fb ← float_of_int b; q ← truediv a fb; math_ceil q.

Definition sizer (runnable : Z) (type_config : TypeConfig) : result (Z * Z) :=
  let ignored_runnables := default 0 (ignoredRunnables type_config) in
  let runnables_per_machine := default 10 (runnablesPerMachine type_config) in
  wanted ← float_ceil_div (Z.max (runnable - ignored_runnables) 0) runnables_per_machine;
  let allowed := Z.min (Z.max wanted (default 0 (minMachines type_config)))
                       (default 1 (maxMachines type_config)) in
  Ok (wanted, allowed).

(** [status["machineTypes"].get(type_name, {"runnable": 0})] *)
Definition type_status_of (mt : gmap string TypeStatus) (type_name : string) : TypeStatus :=
  default {| runnable := 0; lastActive := None |} (mt !! type_name).

(** The demand of one type that has a policy entry: [(wanted, allowed)]. *)
Definition size_type (mt : gmap string TypeStatus) (type_name : string)
    (type_config : TypeConfig) : result (Z * Z) :=
  sizer (runnable (type_status_of mt type_name)) type_config.


(** ** Status fetch (lines 68-75) *)

(** A JSON object printed by the status command.  It has at least one key;
    each key that the program reads may be missing.  [doc_machineTypes]
    lists the entries in the order of the document, which is the order in
    which the dictionary built by [json.loads] holds them. *)
Record StatusDoc := {
  doc_status : option string;
  doc_uptime : option Z;
  doc_machineTypes : option (list (string * TypeStatus));
  doc_machines : option (gmap string (gmap string Z))
}.

(** A value parsed by [json.loads]. *)
Inductive JsonValue :=
| JFalsy                    (* [null], [false], [0], the empty string, list or object *)
| JObject (doc : StatusDoc) (* a non-empty object *)
| JOther.                   (* any other value: it is truthy and has no keys *)

(** What running [statusCommand] and parsing its output can give. *)
Inductive StatusOutput :=
| NonZeroExit               (* [check_output] raises [CalledProcessError] *)
| Unparseable               (* exit status 0, [json.loads] raises [ValueError] *)
| Parsed (v : JsonValue).

Definition down_status : StatusDoc :=
  {| doc_status := Some "down"; doc_uptime := Some 0;
     doc_machineTypes := Some []; doc_machines := Some ∅ |}.

(** Lines 69-72: only [CalledProcessError] is caught, and the handler sets
    [status = None]. *)
Definition run_status_command (o : StatusOutput) : result (option JsonValue) :=
  match o with
  | NonZeroExit => Ok None
  | Unparseable => Raise ValueError
  | Parsed v => Ok (Some v)
  end.

(** Lines 74-75: [if not status or status["status"] == "down"].
    Subscripting a truthy value that is not an object raises [TypeError];
    an object without the key ["status"] raises [KeyError]. *)
Definition normalise_status (status : option JsonValue) : result StatusDoc :=
  match status with
  | None | Some JFalsy => Ok down_status
  | Some JOther => Raise TypeError
  | Some (JObject doc) =>
      match doc_status doc with
      | None => Raise (KeyError "status")
      | Some st => if decide (st = "down") then Ok down_status else Ok doc
      end
  end.

Definition fetch_status (o : StatusOutput) : result StatusDoc :=
  status ← run_status_command o; normalise_status status.

(** ** Folding i686-linux into x86_64-linux (lines 79-87) *)

(** The loop deletes from and inserts into the dictionary whose keys it is
    visiting, so the dictionary is modelled with the bookkeeping that the
    iterator of CPython 3.8 and later consults: the slots in insertion
    order, a deleted slot staying in place without a value. *)
Definition slot : Type := string * option TypeStatus.

Definition dict_of_entries (l : list (string * TypeStatus)) : list slot :=
  (λ e, (e.1, Some e.2)) <$> l.

Fixpoint dict_get (k : string) (d : list slot) : option TypeStatus :=
  match d with
  | [] => None
  | (k', Some v) :: d' => if decide (k' = k) then Some v else dict_get k d'
  | (_, None) :: d' => dict_get k d'
  end.

(** [d[k] = f(d[k])] for a key that is present: the slot keeps its place. *)
Fixpoint dict_update (k : string) (f : TypeStatus → TypeStatus) (d : list slot) : list slot :=
  match d with
  | [] => []
  | (k', Some v) :: d' =>
      if decide (k' = k) then (k', Some (f v)) :: d' else (k', Some v) :: dict_update k f d'
  | (k', None) :: d' => (k', None) :: dict_update k f d'
  end.

(** [d[k] = v]: a new key takes a new slot at the end. *)
Definition dict_set (k : string) (v : TypeStatus) (d : list slot) : list slot :=
  match dict_get k d with
  | Some _ => dict_update k (λ _, v) d
  | None => (d ++ [(k, Some v)])%list
  end.

(** [del d[k]] for a key that is present *)
Fixpoint dict_del (k : string) (d : list slot) : list slot :=
  match d with
  | [] => []
  | (k', Some v) :: d' =>
      if decide (k' = k) then (k', None) :: d' else (k', Some v) :: dict_del k d'
  | (k', None) :: d' => (k', None) :: dict_del k d'
  end.

(** [len(d)] *)
Fixpoint dict_used (d : list slot) : nat :=
  match d with
  | [] => O
  | (_, Some _) :: d' => S (dict_used d')
  | (_, None) :: d' => dict_used d'
  end.

(** The first slot at or after position [pos] that holds a value, with the
    position that follows it. *)
Fixpoint next_live (pos : nat) (d : list slot) : option (nat * string) :=
  match d with
  | [] => None
  | (k, v) :: d' =>
      match pos with
      | S p => prod_map S id <$> next_live p d'
      | O =>
          match v with
          | Some _ => Some (1%nat, k)
          | None => prod_map S id <$> next_live O d'
          end
      end
  end.

Definition add_runnable (n : Z) (ts : TypeStatus) : TypeStatus :=
  {| runnable := runnable ts + n; lastActive := lastActive ts |}.

(** The body of the loop (lines 80-87). *)
Definition squash_body (type_name : string) (d : list slot) : result (list slot) :=
  if Str.startswith type_name "i686-linux" then
    let target_name := Str.replace type_name "i686-linux" "x86_64-linux" in
    match dict_get type_name d with
    | None => Raise (KeyError type_name)
    | Some type_status =>
        let d1 :=
          match dict_get target_name d with
          | Some _ => dict_update target_name (add_runnable (runnable type_status)) d
          | None => dict_set target_name type_status d
          end in
        Ok (dict_del type_name d1)
    end
  else Ok d.

(** [for type_name in status["machineTypes"].keys()].  Each step of the
    iterator first compares the size of the dictionary with the size it had
    when the loop started and raises [RuntimeError] when they differ; it
    then moves to the next slot that holds a value, and raises
    [RuntimeError] when it finds one after having produced as many keys as
    the dictionary had at the start ([len] counts the keys still due). *)
Fixpoint squash_loop (len : nat) (pos used : nat) (d : list slot) : result (list slot) :=
  if decide (dict_used d ≠ used) then Raise RuntimeError
  else
    match next_live pos d with
    | None => Ok d
    | Some (pos', type_name) =>
        match len with
        | O => Raise RuntimeError
        | S len' =>
            d' ← squash_body type_name d;
            squash_loop len' pos' used d'
        end
    end.

Definition squash (d : list slot) : result (list slot) :=
  squash_loop (dict_used d) 0 (dict_used d) d.

(** The dictionary as the later passes read it, by key. *)
Fixpoint dict_to_map (d : list slot) : gmap string TypeStatus :=
  match d with
  | [] => ∅
  | (k, Some v) :: d' => <[k := v]> (dict_to_map d')
  | (_, None) :: d' => dict_to_map d'
  end.

(** ** The run *)

(** What [sf.create_deployment()] returns: no name, no arguments and no
    machine yet. *)
Definition empty_deployment : Deployment :=
  {| name := None; args := ∅; machines := ∅;
     nix_exprs := []; nix_path := []; extra_nix_path := [] |}.

Global Instance Deployment_inhabited : Inhabited Deployment := populate empty_deployment.

Definition set_name (n : string) (d : Deployment) : Deployment :=
  {| name := Some n; args := args d; machines := machines d;
     nix_exprs := nix_exprs d; nix_path := nix_path d;
     extra_nix_path := extra_nix_path d |}.

Definition set_arg (k v : string) (d : Deployment) : Deployment :=
  {| name := name d; args := <[k := v]> (args d); machines := machines d;
     nix_exprs := nix_exprs d; nix_path := nix_path d;
     extra_nix_path := extra_nix_path d |}.

Definition set_exprs (exprs path : list string) (d : Deployment) : Deployment :=
  {| name := name d; args := args d; machines := machines d;
     nix_exprs := exprs; nix_path := path;
     extra_nix_path := extra_nix_path d |}.

Definition alter_machine (f : Machine → Machine) (d : Deployment) : Deployment :=
  {| name := name d; args := args d; machines := alter f "machine" (machines d);
     nix_exprs := nix_exprs d; nix_path := nix_path d;
     extra_nix_path := extra_nix_path d |}.

Definition add_extra_nix_path (p : string) (d : Deployment) : Deployment :=
  {| name := name d; args := args d; machines := machines d;
     nix_exprs := nix_exprs d; nix_path := nix_path d;
     extra_nix_path := extra_nix_path d ++ [p] |}.

(** The variables of [main] that the selection loop of one machine type
    reads and writes. *)
Record Sel := {
  store : Store;
  depls : list nat;
  all_depls : list nat;
  in_use : gset nat;
  existing : list nat;
  have : Z;
  created : Z
}.

Inductive flow := Continue | Break.

(** [existing.sort(key=depl_sort_key)]: the key is [[state != UP]], and the
    sort is stable, so the deployments that are up come first and each
    group keeps its order. *)
Definition is_up (s : Store) (h : nat) : Prop := depl_state (s !!! h) = UP.

Global Instance is_up_dec s h : Decision (is_up s h).
Proof. unfold is_up. apply _. Defined.

Definition sort_existing (s : Store) (l : list nat) : list nat :=
  filter (is_up s) l ++ filter (λ h, ¬ is_up s h) l.

(** [d[key]] for a key that the dictionary may lack *)
Definition subscript {A} (key : string) (o : option A) : result A :=
  match o with
  | Some a => Ok a
  | None => Raise (KeyError key)
  end.

(** [int(time.time())]: every call reads the clock anew.  A reading is
    named by the place of its call: the line, and the round of the loop
    that the call is made in (rounds are counted from [0], the rounds left
    with [continue] included).  Nothing is assumed about how the readings
    relate to each other. *)
Inductive Reading :=
| PaidTimeKept (round : nat)     (* line 41, called from line 187 *)
| Imputed (round : nat)          (* line 213 *)
| Idle (round : nat)             (* line 215 *)
| PaidTimeRetired (round : nat). (* line 41, called from line 289 *)

Section Run.

(** The readings of the clock during the run. *)
Variable clock : Reading → Z.
(** The policy read from the configuration file. *)
Variable config : Config.
(** [depl.machines["machine"].check()]: what the call leaves of the machine
    of a deployment, or the exception that it raises. *)
Variable check : nat → Machine → reply Machine.
(** The text under which [set_argstr] stores a string. *)
Variable nix_string : string → string.
(** [os.path.abspath] and [nixops.util.abs_nix_path] *)
Variable abspath : string → string.
Variable abs_nix_path : string → string.

(** Lines 160-167: the deployment is configured with the recipe of the
    type and counted; the loop is left once a deployment was created. *)
Definition accept (type_config : TypeConfig) (h : nat) (st : Sel) : Sel * flow :=
  let exprs := [abspath (nixopsExpr type_config)] in
  let path := abs_nix_path <$> default [] (nixPath type_config) in
  let st' :=
    {| store := alter (set_exprs exprs path) h (store st);
       depls := depls st; all_depls := all_depls st;
       in_use := {[h]} ∪ in_use st;
       existing := existing st;
       have := have st + 1;
       created := created st |} in
  (st', if decide (created st' >= 1) then Break else Continue).

(** Lines 127-137: a new deployment is created, named and appended to
    both inventories. *)
Definition create (type_name : string) (st : Sel) : result (nat * Sel) :=
  name ← get_new_deployment_name (tag config) ((λ h, store st !!! h) <$> depls st);
  let h := fresh (dom (store st)) in
  let depl :=
    set_arg "tag" (nix_string (tag config))
      (set_arg "type" (nix_string type_name)
         (set_name name empty_deployment)) in
  Ok (h, {| store := <[h := depl]> (store st);
            depls := depls st ++ [h];
            all_depls := all_depls st ++ [h];
            in_use := in_use st;
            existing := existing st;
            have := have st;
            created := created st + 1 |}).

Definition with_existing (l : list nat) (st : Sel) : Sel :=
  {| store := store st; depls := depls st; all_depls := all_depls st;
     in_use := in_use st; existing := l; have := have st;
     created := created st |}.

Definition with_store (s : Store) (st : Sel) : Sel :=
  {| store := s; depls := depls st; all_depls := all_depls st;
     in_use := in_use st; existing := existing st; have := have st;
     created := created st |}.

(** One round of the [while have < allowed] loop (lines 122-167). *)
Definition select_step (type_name : string) (type_config : TypeConfig)
    (st : Sel) : result (Sel * flow) :=
  match existing st with
  | [] =>
      '(h, st1) ← create type_name st;
      Ok (accept type_config h st1)
  | h :: rest =>
      if decide (depl_state (store st !!! h) = UP) then
        m ← subscript "machine" (machines (store st !!! h) !! "machine");
        m' ← of_reply (check h m);
        let st1 := with_store (alter (alter_machine (λ _, m')) h (store st)) st in
        if decide (depl_state (store st1 !!! h) ≠ UP) then
          Ok (with_existing (sort_existing (store st1) (existing st1)) st1, Continue)
        else Ok (accept type_config h (with_existing rest st1))
      else if decide (depl_state (store st !!! h) = MISSING) then
        Ok (with_existing rest st, Continue)
      else Ok (accept type_config h (with_existing rest st))
  end.

Fixpoint select_loop (fuel : nat) (type_name : string) (type_config : TypeConfig)
    (allowed : Z) (st : Sel) : result Sel :=
  if decide (have st < allowed) then
    match fuel with
    | O => OutOfFuel
    | S fuel' =>
        '(st', fl) ← select_step type_name type_config st;
        match fl with
        | Continue => select_loop fuel' type_name type_config allowed st'
        | Break => Ok st'
        end
    end
  else Ok st.

(** The rounds the loop can need: every round that does not create a
    deployment removes a candidate or demotes one that was up, and the
    round that creates one is the last. *)
Definition select_fuel (st : Sel) : nat := 2 * length (existing st) + 1.

(** The body of [for type_name in system_types] (lines 97-167). *)
Definition provision_type (mt : gmap string TypeStatus) (st : Sel)
    (type_name : string) : result Sel :=
  match systemTypes config !! type_name with
  | None => Ok st
  | Some type_config =>
      '(wanted, allowed) ← size_type mt type_name type_config;
      let of_type h := get_depl_arg (store st !!! h) "type" = type_name in
      let st0 :=
        {| store := store st; depls := depls st; all_depls := all_depls st;
           in_use := in_use st;
           existing := sort_existing (store st) (filter of_type (depls st));
           have := 0; created := 0 |} in
      select_loop (select_fuel st0) type_name type_config allowed st0
  end.

(** [system_types] is a Python set; it is visited in the order in which
    [elements] lists it. *)
Definition system_types (mt : gmap string TypeStatus) : list string :=
  elements (dom mt ∪ dom (systemTypes config)).

Definition provision (mt : gmap string TypeStatus) (st : Sel) : result Sel :=
  foldM (provision_type mt) st (system_types mt).

(** *** Retention (lines 170-220) *)

Record Sets := {
  kept : gset nat;       (* [in_use] *)
  expired : gset nat;
  unusable : gset nat
}.

Definition add_in_use (h : nat) (st : Sets) : Sets :=
  {| kept := {[h]} ∪ kept st; expired := expired st; unusable := unusable st |}.
Definition add_expired (h : nat) (st : Sets) : Sets :=
  {| kept := kept st; expired := {[h]} ∪ expired st; unusable := unusable st |}.
Definition add_unusable (h : nat) (st : Sets) : Sets :=
  {| kept := kept st; expired := expired st; unusable := {[h]} ∪ unusable st |}.

(** [machine_status and machine_status.get("currentJobs", 0) != 0] *)
Definition has_current_jobs (machine_status : gmap string Z) : bool :=
  bool_decide (machine_status ≠ ∅)
  && bool_decide (default 0 (machine_status !! "currentJobs") ≠ 0).

(** The body of [for depl in depls] (lines 173-220), in the round [i] of
    the loop. *)
Definition retention_step (i : nat) (status : Status) (s : Store) (st : Sets) (h : nat)
    : result Sets :=
  let depl := s !!! h in
  if decide (h ∈ kept st) then Ok st
  else if decide (depl_state depl ∉ [UP; STARTING]) then Ok (add_expired h st)
  else
    let type_name := get_depl_arg depl "type" in
    let type_config := systemTypes config !! type_name in
    let type_status := machineTypes status !! type_name in
    let grace_period :=
      match type_config with
      | Some tc => default 0 (gracePeriod tc)
      | None => 0
      end in
    let time_left := get_depl_time_left (clock (PaidTimeKept i)) depl in
    if decide (time_left >= 30 * 60) then Ok (add_in_use h st)
    else
      let m := machines depl !! "machine" in
      stats ← subscript "machines" (machine_stats status);
      match m with
      | None => Raise AttributeError
      | Some m =>
          let machine_status := default ∅ (stats !! ("root@" +:+ ssh_name m)) in
          if has_current_jobs machine_status then
            let st1 := add_in_use h st in
            Ok (if decide (grace_period > 0) then add_unusable h st1 else st1)
          else
            let last_active :=
              match type_status with
              | Some ts => default 0 (lastActive ts)
              | None => 0
              end in
            last_active ←
              (if decide (last_active = 0)
               then up ← subscript "uptime" (uptime status);
                    Ok (clock (Imputed i) - up + 1800)
               else Ok last_active);
            if decide (clock (Idle i) - last_active < grace_period)
            then Ok (add_in_use h st)
            else Ok (add_expired h st)
      end.

Definition retention (status : Status) (s : Store) (depls : list nat)
    (in_use : gset nat) : result Sets :=
  foldMi (λ i, retention_step i status s) 0
         {| kept := in_use; expired := ∅; unusable := ∅ |} depls.

(** *** Deployment (lines 223-235) *)

(** The path of the provisioner's own modules. *)
Variable own_modules : string.
(** [depl.deploy(check=True)] followed by the keep-alive command: what the
    engine leaves of the deployment, and whether both calls returned
    without raising. *)
Variable deploy : nat → Deployment → Deployment * bool.

(** [up_to_date] is never added to, so every deployment in [in_use] is
    deployed again.  Reading [depl.machines["machine"]] for the
    keep-alive raises [KeyError] inside the [try] when the deployment
    has no machine. *)
Definition deploy_step (acc : Store * gset nat) (h : nat) : Store * gset nat :=
  let '(s, deployed) := acc in
  let s1 := alter (add_extra_nix_path ("hydra-provisioner=" +:+ own_modules)) h s in
  let '(depl', ok) := deploy h (s1 !!! h) in
  let s2 := <[h := depl']> s1 in
  if ok && bool_decide (is_Some (machines depl' !! "machine"))
  then (s2, {[h]} ∪ deployed)
  else (s2, deployed).

Definition deploy_pass (s : Store) (in_use : gset nat) : Store * gset nat :=
  foldl deploy_step (s, ∅) (elements in_use).

(** *** Roster (lines 238-270) *)

(** [base64.b64encode] applied to the host key, as the text that ends up
    in the line; the call may raise. *)
Variable b64encode : string → result string.

Definition colon : ascii := ascii_of_nat 58.
Definition comma : ascii := ascii_of_nat 44.
Definition space : ascii := ascii_of_nat 32.
Definition newline : string := String (ascii_of_nat 10) EmptyString.

(** Lines 248-253 *)
Definition systems_and_features (type_name : string) : list string * list string :=
  let type_name := if Str.contains colon type_name then type_name else type_name +:+ ":" in
  let '(systems, features) := Str.split1 colon type_name in
  let systems_list := Str.split comma systems in
  let features_list := if decide (features = "") then [] else Str.split comma features in
  let systems_list :=
    if bool_decide ("x86_64-linux" ∈ systems_list) && bool_decide ("i686-linux" ∉ systems_list)
    then (systems_list ++ ["i686-linux"])%list else systems_list in
  (systems_list, features_list).

(** Lines 255-264 *)
Definition columns (type_name : string) (type_config : TypeConfig) (m : Machine)
    : result (list string) :=
  let '(systems_list, features_list) := systems_and_features type_name in
  let features_column :=
    match features_list with
    | [] => "-"
    | _ => Str.join "," features_list
    end in
  key_column ←
    match public_host_key m with
    | None => Ok "-"
    | Some k => if decide (k = "") then Ok "-" else b64encode k
    end;
  Ok [ "root@" +:+ ssh_name m;
       Str.join "," systems_list;
       default "-" (sshKey type_config);
       Str.of_int (default 1 (maxJobs type_config));
       Str.of_int (default 1 (speedFactor type_config));
       features_column;
       features_column;
       key_column ].

(** Lines 242-268: the line of one deployment. *)
Definition roster_line (depl : Deployment) : result string :=
  match machines depl !! "machine" with
  | None => Raise AssertionError
  | Some m =>
      let type_name := get_depl_arg depl "type" in
      type_config ← subscript type_name (systemTypes config !! type_name);
      cols ← columns type_name type_config m;
      if forallb (λ c, bool_decide (c ≠ "")) cols
      then Ok (Str.join " " cols +:+ newline)
      else Raise AssertionError
  end.

Definition roster_step (s : Store) (unusable : gset nat) (machines_list : list string)
    (h : nat) : result (list string) :=
  if decide (h ∈ unusable) then Ok machines_list
  else line ← roster_line (s !!! h); Ok (machines_list ++ [line])%list.

Definition roster (s : Store) (deployed unusable : gset nat) : result (list string) :=
  foldM (roster_step s unusable) [] (elements deployed).

(** *** Retirement (lines 281-305) *)

Inductive call :=
| StopMachines (h : nat)
| DestroyResources (h : nat)
| Delete (h : nat).

(** The engine calls made for one expired deployment, [now] being the
    reading of the clock taken for it. *)
Definition retire_step (now : Z) (s : Store) (h : nat) : list call :=
  let depl := s !!! h in
  let type_name := get_depl_arg depl "type" in
  let type_config := systemTypes config !! type_name in
  if bool_decide (depl_state depl ∈ [UP; STARTING])
     && bool_decide (get_depl_time_left now depl >= 10 * 60)
  then []
  else
    let stop_on_idle :=
      match type_config with
      | Some tc => default false (stopOnIdle tc)
      | None => false
      end in
    if stop_on_idle then
      if decide (depl_state depl ≠ STOPPED) then [StopMachines h] else []
    else [DestroyResources h; Delete h].

Definition retirement (s : Store) (expired : gset nat) : list call :=
  mjoin (imap (λ i, retire_step (clock (PaidTimeRetired i)) s) (elements expired)).

(** *** The whole run *)

(** Lines 271-278: the roster is handed to [updateCommand] or written to
    the machines file; either may raise. *)
Variable hand_off : string → result unit.

Record Outcome := {
  final_store : Store;
  final_depls : list nat;
  final_sets : Sets;
  deployed_set : gset nat;
  machines_file : string;
  calls : list call
}.

(** [main], from the inventory [all_depls] held in the store [s] and the
    outcome [o] of the status command. *)
Definition main (s : Store) (all_depls : list nat) (o : StatusOutput) : result Outcome :=
  let tagged := filter (λ h, get_depl_arg (s !!! h) "tag" = tag config) all_depls in
  doc ← fetch_status o;
  entries ← subscript "machineTypes" (doc_machineTypes doc);
  d ← squash (dict_of_entries entries);
  let status :=
    {| uptime := doc_uptime doc; machineTypes := dict_to_map d;
       machine_stats := doc_machines doc |} in
  sel ← provision (machineTypes status)
          {| store := s; depls := tagged; all_depls := all_depls; in_use := ∅;
             existing := []; have := 0; created := 0 |};
  sets ← retention status (store sel) (depls sel) (in_use sel);
  let '(s', deployed) := deploy_pass (store sel) (kept sets) in
  machines_list ← roster s' deployed (unusable sets);
  let file := String.concat "" machines_list in
  _ ← hand_off file;
  Ok {| final_store := s'; final_depls := depls sel; final_sets := sets;
        deployed_set := deployed; machines_file := file;
        calls := retirement s' (expired sets) |}.

End Run.

(** ** Concrete inventories, policies and engines *)

Module Scenario.

Definition now : Z := 1700000000.

(** A string argument as the engine stores it. *)
Definition quoted (s : string) : string := the_quote +:+ s +:+ the_quote.

Definition policy (mn mx grace : option Z) (soi : option bool) : TypeConfig :=
  {| nixopsExpr := "/etc/hydra/worker.nix"; nixPath := None;
     runnablesPerMachine := None; ignoredRunnables := None;
     minMachines := mn; maxMachines := mx;
     gracePeriod := grace; stopOnIdle := soi;
     sshKey := None; maxJobs := None; speedFactor := None |}.

Definition config_for (type_name : string) (tc : TypeConfig) : Config :=
  {| tag_opt := None; systemTypes := {[ type_name := tc ]} |}.

Definition machine (st : ResourceState) (charge : option Z) : Machine :=
  {| state := st; ssh_name := "worker-1"; public_host_key := None;
     next_charge_time := charge |}.

Definition deployment (n tg ty : string) (m : option Machine) : Deployment :=
  {| name := Some n;
     args := <["tag" := quoted tg]> {[ "type" := quoted ty ]};
     machines := match m with Some m => {[ "machine" := m ]} | None => ∅ end;
     nix_exprs := []; nix_path := []; extra_nix_path := [] |}.

(** A clock that stands still during the run. *)
Definition clock (r : Reading) : Z := now.

(** An engine whose check changes nothing and whose deploy brings the
    machine up, creating it when there is none. *)
Definition check (h : nat) (m : Machine) : reply Machine := Returns m.

Definition deploy (h : nat) (d : Deployment) : Deployment * bool :=
  let m :=
    match machines d !! "machine" with
    | Some m => {| state := UP; ssh_name := ssh_name m;
                   public_host_key := public_host_key m;
                   next_charge_time := next_charge_time m |}
    | None => machine UP None
    end in
  ({| name := name d; args := args d; machines := <["machine" := m]> (machines d);
      nix_exprs := nix_exprs d; nix_path := nix_path d;
      extra_nix_path := extra_nix_path d |}, true).

(** An encoder that raises on every key, as [base64.b64encode] does when
    it is handed a [str]; the machines of the scenarios have no host key. *)
Definition b64encode (k : string) : result string := Raise TypeError.

(** A hand-off of the roster that succeeds. *)
Definition hand_off (file : string) : result unit := Ok ().

(** [main] with this engine. *)
Definition run (config : Config) : Store → list nat → StatusOutput → result Outcome :=
  main clock config check quoted id id "/share/nix/hydra-provisioner" deploy b64encode
    hand_off.

Definition status_doc (types : list (string * TypeStatus))
    (stats : gmap string (gmap string Z)) : StatusDoc :=
  {| doc_status := Some "up"; doc_uptime := Some 86400;
     doc_machineTypes := Some types; doc_machines := Some stats |}.

(** One deployment of type [x86_64-linux:], up, with no paid time left, and
    a dispatcher that reports two current jobs on it. *)
Definition worker (st : ResourceState) (charge : option Z) : Deployment :=
  deployment "hydra-provisioned-0" "hydra-provisioned" "x86_64-linux:" (Some (machine st charge)).

Definition busy_stats : gmap string (gmap string Z) :=
  {[ "root@worker-1" := {[ "currentJobs" := 2 ]} ]}.

Definition idle_stats : gmap string (gmap string Z) :=
  {[ "root@worker-1" := {[ "currentJobs" := 0 ]} ]}.

Definition status_with (last : option Z) (stats : gmap string (gmap string Z)) : Status :=
  {| uptime := Some 86400;
     machineTypes := {[ "x86_64-linux:" := {| runnable := 0; lastActive := last |} ]};
     machine_stats := Some stats |}.

Definition no_sets : Sets := {| kept := ∅; expired := ∅; unusable := ∅ |}.

End Scenario.

(** ** Vocabulary of the statements *)

(** The candidates of a pool that are up. *)
Definition count_up (s : Store) (l : list nat) : nat := length (filter (is_up s) l).

(** What bounds the rounds of the selection loop that do not create a
    deployment. *)
Definition rounds_left (st : Sel) : nat :=
  (length (existing st) + count_up (store st) (existing st))%nat.

(** The inventory after a round or after the loop, against the inventory
    [st] before it: nothing was created, or one deployment was, named
    ["<prefix>-<n>"] with a name that no deployment of [depls] carried. *)
Definition unchanged_inventory (st st' : Sel) : Prop :=
  dom (store st') = dom (store st) ∧ depls st' = depls st
  ∧ all_depls st' = all_depls st
  ∧ ∀ h, name (store st' !!! h) = name (store st !!! h).

Definition one_created (prefix : string) (st st' : Sel) : Prop :=
  ∃ (h n : nat),
    (h ∉ dom (store st))
    ∧ dom (store st') = {[h]} ∪ dom (store st)
    ∧ depls st' = (depls st ++ [h])%list
    ∧ all_depls st' = (all_depls st ++ [h])%list
    ∧ name (store st' !!! h) = Some (candidate prefix n)
    ∧ (Some (candidate prefix n) ∉ (λ h, name (store st !!! h)) <$> depls st)
    ∧ (∀ j, (j < n)%nat →
         Some (candidate prefix j) ∈ (λ h, name (store st !!! h)) <$> depls st).

(** *** The roster table

    The line of a worker as the table of the roster emitter describes it,
    written without the functions of the program that cut the type
    identifier. *)

(** Whitespace: space, tab, line feed, vertical tab, form feed and carriage
    return. *)
Definition is_whitespace (a : ascii) : bool :=
  let n := nat_of_ascii a in bool_decide (n = 32 ∨ 9 ≤ n ≤ 13)%nat.

Fixpoint has_whitespace (s : string) : bool :=
  match s with
  | EmptyString => false
  | String a s' => is_whitespace a || has_whitespace s'
  end.

(** The whitespace-separated fields of a text: its maximal runs of
    characters that are not whitespace. *)
Fixpoint fields (s : string) : list string :=
  match s with
  | EmptyString => []
  | String a s' =>
      if is_whitespace a then fields s'
      else match s' with
           | EmptyString => [String a EmptyString]
           | String b _ =>
               if is_whitespace b then String a EmptyString :: fields s'
               else match fields s' with
                    | f :: fs => String a f :: fs
                    | [] => [String a EmptyString]
                    end
           end
  end.

(** The type identifier cut at its first colon: [systems] is what stands
    before it and [features] what stands after it; an identifier without
    colon is all systems and has no features. *)
Definition cut_at_first_colon (type_name systems features : string) : Prop :=
  Str.contains colon systems = false
  ∧ (type_name = systems +:+ ":" +:+ features
     ∨ (type_name = systems ∧ features = "")).

(** [items] are the entries of the comma-separated [text]. *)
Definition comma_separated (text : string) (items : list string) : Prop :=
  items ≠ [] ∧ Forall (λ x, Str.contains comma x = false) items
  ∧ Str.join "," items = text.

(** The systems of a worker: those of its type, and [i686-linux] after
    them when [x86_64-linux] is among them and [i686-linux] is not. *)
Definition table_systems (systems : string) (systems_list : list string) : Prop :=
  ∃ declared,
    comma_separated systems declared
    ∧ systems_list
      = if decide ("x86_64-linux" ∈ declared ∧ "i686-linux" ∉ declared)
        then (declared ++ ["i686-linux"])%list else declared.

(** The features of a worker: none when the features text is empty. *)
Definition table_features (features : string) (features_list : list string) : Prop :=
  if decide (features = "") then features_list = []
  else comma_separated features features_list.

(** Column 8: the encoded host key of a machine that has one, a dash for a
    machine that has none (or an empty one). *)
Definition table_key (b64encode : string → result string) (m : Machine) (key : string)
    : Prop :=
  (∃ k, public_host_key m = Some k ∧ k ≠ "" ∧ b64encode k = Ok key)
  ∨ ((public_host_key m = None ∨ public_host_key m = Some "") ∧ key = "-").

(** The eight columns of the table. *)
Definition table_columns (m : Machine) (type_config : TypeConfig)
    (systems_list features_list : list string) (key : string) : list string :=
  let features_column :=
    if decide (features_list = []) then "-" else Str.join "," features_list in
  [ "root@" +:+ ssh_name m;
    Str.join "," systems_list;
    default "-" (sshKey type_config);
    Str.of_int (default 1 (maxJobs type_config));
    Str.of_int (default 1 (speedFactor type_config));
    features_column;
    features_column;
    key ].

(** [line] is the roster line of the deployment [depl]: the eight columns
    of the table, none empty, joined by single spaces and closed by a
    newline.  The whitespace-separated fields of the line are the eight
    columns exactly when no column contains whitespace. *)
Definition is_roster_line (config : Config) (b64encode : string → result string)
    (depl : Deployment) (line : string) : Prop :=
  ∃ m type_config systems features systems_list features_list key,
    machines depl !! "machine" = Some m
    ∧ systemTypes config !! get_depl_arg depl "type" = Some type_config
    ∧ cut_at_first_colon (get_depl_arg depl "type") systems features
    ∧ table_systems systems systems_list
    ∧ table_features features features_list
    ∧ table_key b64encode m key
    ∧ let cols := table_columns m type_config systems_list features_list key in
      length cols = 8%nat
      ∧ Forall (λ c, c ≠ "") cols
      ∧ line = Str.join " " cols +:+ newline
      ∧ (fields line = cols ↔ Forall (λ c, has_whitespace c = false) cols)
      ∧ (Forall (λ c, Str.contains space c = false) cols →
         Str.split space (Str.join " " cols) = cols).

(** A slot that the folding loop has to fold: it holds a value and its key
    begins with [i686-linux]. *)
Definition to_fold (sl : slot) : bool :=
  bool_decide (is_Some sl.2) && Str.startswith sl.1 "i686-linux".

(** What the selection loop leaves alone, from the state [st] to the state
    [st']: the inventory only grows, a deployment newly in use is one of
    the inventory, deployments outside the inventory keep their contents,
    and every deployment newly in use was counted in [have]. *)
Definition selection_frame (st st' : Sel) : Prop :=
  (∀ h, h ∈ depls st → h ∈ depls st')
  ∧ (∀ h, h ∈ in_use st' → h ∈ in_use st ∨ h ∈ depls st')
  ∧ (∀ h, h ∈ in_use st → h ∈ in_use st')
  ∧ (∀ h, h ∉ depls st' → store st' !! h = store st !! h)
  ∧ Z.of_nat (size (in_use st' ∖ in_use st)) ≤ have st' - have st.


(** A deployment that carries the recipe of the policy entry [tc]
    (lines 160-161). *)
Definition configured (abspath abs_nix_path : string → string) (tc : TypeConfig)
    (d : Deployment) : Prop :=
  nix_exprs d = [abspath (nixopsExpr tc)]
  ∧ nix_path d = abs_nix_path <$> default [] (nixPath tc).

(** What the selection loop of a type keeps true, [base] being the
    deployments in use before it: the inventory is held by the store, the
    pool is part of the inventory, and every deployment put in use since
    carries the recipe. *)
Definition recipe_inv (abspath abs_nix_path : string → string) (tc : TypeConfig)
    (base : gset nat) (st : Sel) : Prop :=
  (∀ h, h ∈ depls st → h ∈ dom (store st))
  ∧ (∀ h, h ∈ existing st → h ∈ depls st)
  ∧ (∀ h, h ∈ in_use st → h ∉ base →
       configured abspath abs_nix_path tc (store st !!! h)).

(** ** Properties *)

(** *** The string operations on the inputs of the program *)

Example candidate_0 : candidate "hydra-provisioned" 0 = "hydra-provisioned-0".
Proof. reflexivity. Qed.

Example replace_i686 :
  Str.replace "i686-linux:kvm" "i686-linux" "x86_64-linux" = "x86_64-linux:kvm".
Proof. reflexivity. Qed.

Example replace_every_occurrence :
  Str.replace "i686-linux,i686-linux:" "i686-linux" "x86_64-linux"
  = "x86_64-linux,x86_64-linux:".
Proof. reflexivity. Qed.

Example split_systems :
  Str.split comma "x86_64-linux,i686-linux" = ["x86_64-linux"; "i686-linux"].
Proof. reflexivity. Qed.

Example split_empty : Str.split comma "" = [""].
Proof. reflexivity. Qed.

Example get_depl_arg_strips_quotes :
  get_depl_arg (Scenario.worker UP None) "type" = "x86_64-linux:".
Proof. reflexivity. Qed.

(** *** Sizer *)





Lemma rne_ge (n d M : Z) : 0 < d → M * d ≤ n → M ≤ rne n d.
Proof.
  intros Hd Hn. unfold rne.
  pose proof (Z.div_mod n d ltac:(lia)) as Hdm.
  pose proof (Z.mod_pos_bound n d Hd) as Hm.
  repeat destruct (decide _); try destruct (Z.even _); nia.
Qed.






(** Only the integer [0] becomes the float [0]. *)
Lemma float_of_int_zero (b : Z) (y : double) :
  float_of_int b = Ok y → mant y = 0 → b = 0.
Proof.
  unfold float_of_int. destruct (overflows _); [done|]. intros [= <-]. simpl.
  destruct (decide (b = 0)) as [|Hne]; [done|]. intros Hm. exfalso.
  assert (0 < Z.abs b) as Hpos by lia.
  pose proof (Z.log2_spec (Z.abs b) Hpos) as [Hlog _].
  pose proof (Z.log2_nonneg (Z.abs b)) as Hnn.
  set (e := Z.max (Z.log2 (Z.abs b) - 52) 0) in *.
  assert (0 < 2 ^ e) as Hpe by (apply Z.pow_pos_nonneg; lia).
  assert (1 ≤ rne (Z.abs b) (2 ^ e)) as Hr.
  { apply rne_ge; [done|]. rewrite Z.mul_1_l.
    etrans; [|exact Hlog]. apply Z.pow_le_mono_r; lia. }
  destruct (Z.sgn_spec b) as [[_ Hs]|[[? _]|[_ Hs]]]; [|done|]; rewrite Hs in Hm; lia.
Qed.



(** Line 106 raises nothing but [ZeroDivisionError], for the divisor [0]
    only, and [OverflowError]. *)
Lemma float_ceil_div_raises (a b : Z) :
  match float_ceil_div a b with
  | Ok _ => True
  | Raise e => (e = ZeroDivisionError ∧ b = 0) ∨ e = OverflowError
  | OutOfFuel => False
  end.
Proof.
  unfold float_ceil_div, truediv.
  destruct (float_of_int b) as [y| |] eqn:Hb; simpl.
  - destruct (float_of_int a) as [x| |] eqn:Ha; simpl.
    + destruct (decide (mant y = 0)) as [Hy|]; simpl.
      * left. split; [done|]. by eapply float_of_int_zero.
      * unfold math_ceil. destruct (overflows _); [by right|]. by destruct (decide _).
    + revert Ha. unfold float_of_int. destruct (overflows _); [|done].
      intros [= <-]. by right.
    + revert Ha. unfold float_of_int. by destruct (overflows _).
  - revert Hb. unfold float_of_int. destruct (overflows _); [|done].
    intros [= <-]. by right.
  - revert Hb. unfold float_of_int. by destruct (overflows _).
Qed.




(** C4 as it was claimed, for every number of runnables, fails beyond the
    53 bits of a float: with [2^53 + 1] runnables and one runnable per
    machine the ceiling is [2^53 + 1], and line 106 gives [2^53]. *)
Lemma sizer_drops_a_runnable :
  let tc := {| nixopsExpr := "/etc/hydra/worker.nix"; nixPath := None;
               runnablesPerMachine := Some 1; ignoredRunnables := None;
               minMachines := None; maxMachines := Some (2 ^ 60);
               gracePeriod := None; stopOnIdle := None;
               sshKey := None; maxJobs := None; speedFactor := None |} in
  let mt : gmap string TypeStatus :=
    {[ "x86_64-linux:" := {| runnable := 2 ^ 53 + 1; lastActive := None |} ]} in
  size_type mt "x86_64-linux:" tc = Ok (2 ^ 53, 2 ^ 53)
  ∧ ceil_div (Z.max (2 ^ 53 + 1 - 0) 0) 1 = 2 ^ 53 + 1
  ∧ ¬ (Z.max (2 ^ 53 + 1 - 0) 0 ≤ 2 ^ 53 * 1).
Proof.
  split; [vm_compute; reflexivity|]. split; [vm_compute; reflexivity|].
  vm_compute. by intros H.
Qed.

(** *** Status fetch *)

(** C2. A non-zero exit of the status command gives the synthesised
    [down] status, but output that is not JSON raises [ValueError], and a
    document without the key ["status"] (or, when it is not down, without
    ["machineTypes"]) raises [KeyError]: neither is caught, and [main]
    ends with that exception whatever the inventory and the engine are. *)
Theorem status_fetch_aborts_run :
  fetch_status NonZeroExit = Ok down_status
  ∧ fetch_status Unparseable = Raise ValueError
  ∧ (∀ doc, doc_status doc = None →
       fetch_status (Parsed (JObject doc)) = Raise (KeyError "status"))
  ∧ (∀ now config check nix_string abspath abs_nix_path own_modules deploy
       b64encode hand_off s all_depls,
       main now config check nix_string abspath abs_nix_path own_modules deploy
         b64encode hand_off s all_depls Unparseable = Raise ValueError
       ∧ main now config check nix_string abspath abs_nix_path own_modules deploy
           b64encode hand_off s all_depls
           (Parsed (JObject {| doc_status := None; doc_uptime := Some 60;
                               doc_machineTypes := Some []; doc_machines := Some ∅ |}))
         = Raise (KeyError "status")
       ∧ main now config check nix_string abspath abs_nix_path own_modules deploy
           b64encode hand_off s all_depls
           (Parsed (JObject {| doc_status := Some "up"; doc_uptime := Some 60;
                               doc_machineTypes := None; doc_machines := Some ∅ |}))
         = Raise (KeyError "machineTypes")).
Proof.
  split; [reflexivity|]. split; [reflexivity|].
  split.
  - intros doc Hdoc. unfold fetch_status. simpl. by rewrite Hdoc.
  - intros. repeat split; reflexivity.
Qed.

(** *** Retirement *)

Lemma retire_step_handle config now s h c :
  c ∈ retire_step config now s h → c = StopMachines h ∨ c = DestroyResources h ∨ c = Delete h.
Proof.
  unfold retire_step.
  destruct (bool_decide _ && bool_decide _); [by intros ?%elem_of_nil|].
  destruct (match systemTypes config !! _ with Some _ => _ | None => _ end).
  - destruct (decide _); [intros ->%list_elem_of_singleton; by left | by intros ?%elem_of_nil].
  - intros [->| ->%list_elem_of_singleton]%elem_of_cons; auto.
Qed.

Lemma retire_step_paid config now s h :
  depl_state (s !!! h) ∈ [UP; STARTING] →
  get_depl_time_left now (s !!! h) >= 10 * 60 →
  retire_step config now s h = [].
Proof.
  intros Hst Htl. unfold retire_step.
  rewrite (bool_decide_eq_true_2 _ Hst), (bool_decide_eq_true_2 _ Htl). done.
Qed.

(** An engine call of the pass is made in the round of one expired
    deployment, with the reading of the clock taken in that round. *)
Lemma elem_of_retirement clock config (s : Store) (expired : gset nat) (c : call) :
  c ∈ retirement clock config s expired
  ↔ ∃ i h, elements expired !! i = Some h
           ∧ c ∈ retire_step config (clock (PaidTimeRetired i)) s h.
Proof.
  unfold retirement. rewrite list_elem_of_join. split.
  - intros (l & Hc & (i & h & -> & Hi)%elem_of_lookup_imap). by exists i, h.
  - intros (i & h & Hi & Hc). eexists. split; [exact Hc|].
    by apply (elem_of_lookup_imap_2 (λ i, retire_step config (clock (PaidTimeRetired i)) s)).
Qed.

(** C3, as the code has it. An expired deployment whose state is up or
    starting is neither destroyed nor deleted (nor stopped) while its
    [timeLeft], at the reading of the clock taken for it, is at least
    [10*60] seconds. *)
Theorem no_destroy_of_active_with_paid_time clock config (s : Store) (expired : gset nat)
    (h : nat) :
  depl_state (s !!! h) ∈ [UP; STARTING] →
  (∀ i, elements expired !! i = Some h →
        get_depl_time_left (clock (PaidTimeRetired i)) (s !!! h) >= 10 * 60) →
  (DestroyResources h ∉ retirement clock config s expired)
  ∧ (Delete h ∉ retirement clock config s expired)
  ∧ (StopMachines h ∉ retirement clock config s expired).
Proof.
  intros Hst Htl.
  assert (∀ c, c ∈ retirement clock config s expired →
               c ≠ DestroyResources h ∧ c ≠ Delete h ∧ c ≠ StopMachines h) as Hall.
  { intros c (i & h' & Hi & Hcl)%elem_of_retirement.
    destruct (decide (h' = h)) as [->|Hne].
    - rewrite retire_step_paid in Hcl by auto. by apply elem_of_nil in Hcl.
    - apply retire_step_handle in Hcl as [->| [->| ->]]; repeat split; congruence. }
  repeat split; intros Hc; destruct (Hall _ Hc) as (? & ? & ?); congruence.
Qed.

(** C3 as stated fails: a stopped deployment whose machine still has an
    hour of paid time is destroyed. *)
Lemma stopped_destroyed_with_paid_time :
  let d := Scenario.deployment "hydra-provisioned-0" "hydra-provisioned" "x86_64-linux:"
             (Some (Scenario.machine STOPPED (Some (Scenario.now + 3600)))) in
  let config := Scenario.config_for "x86_64-linux:" (Scenario.policy None None None None) in
  get_depl_time_left (Scenario.clock (PaidTimeRetired 0)) d >= 10 * 60
  ∧ retirement Scenario.clock config {[ 0%nat := d ]} {[ 0%nat ]}
    = [DestroyResources 0; Delete 0].
Proof. split; [vm_compute; discriminate | reflexivity]. Qed.

Lemma no_destroy_of_active_with_paid_time_witness :
  let d := Scenario.deployment "hydra-provisioned-0" "hydra-provisioned" "x86_64-linux:"
             (Some (Scenario.machine UP (Some (Scenario.now + 3600)))) in
  let config := Scenario.config_for "x86_64-linux:" (Scenario.policy None None None None) in
  (DestroyResources 0 ∉ retirement Scenario.clock config {[ 0%nat := d ]} {[ 0%nat ]})
  ∧ (Delete 0 ∉ retirement Scenario.clock config {[ 0%nat := d ]} {[ 0%nat ]})
  ∧ (StopMachines 0 ∉ retirement Scenario.clock config {[ 0%nat := d ]} {[ 0%nat ]}).
Proof.
  intros d config.
  apply (no_destroy_of_active_with_paid_time Scenario.clock config {[ 0%nat := d ]}
           {[ 0%nat ]} 0%nat).
  - vm_compute. apply list_elem_of_here.
  - intros i _. vm_compute. discriminate.
Defined.

(** *** Retention *)

Lemma state_active_has_machine (d : Deployment) :
  depl_state d ∈ [UP; STARTING] → is_Some (machines d !! "machine").
Proof.
  unfold depl_state. destruct (machines d !! "machine"); [eauto|].
  intros [?|[?|?%elem_of_nil]%elem_of_cons]%elem_of_cons; done.
Qed.

Lemma elem_of_add_in_use (h x : nat) (st : Sets) :
  (x ∈ kept (add_in_use h st) ↔ x = h ∨ x ∈ kept st)
  ∧ (x ∈ expired (add_in_use h st) ↔ x ∈ expired st)
  ∧ (x ∈ unusable (add_in_use h st) ↔ x ∈ unusable st).
Proof. simpl. set_solver. Qed.

Lemma elem_of_add_expired (h x : nat) (st : Sets) :
  (x ∈ kept (add_expired h st) ↔ x ∈ kept st)
  ∧ (x ∈ expired (add_expired h st) ↔ x = h ∨ x ∈ expired st)
  ∧ (x ∈ unusable (add_expired h st) ↔ x ∈ unusable st).
Proof. simpl. set_solver. Qed.

Lemma elem_of_add_unusable (h x : nat) (st : Sets) :
  (x ∈ kept (add_unusable h st) ↔ x ∈ kept st)
  ∧ (x ∈ expired (add_unusable h st) ↔ x ∈ expired st)
  ∧ (x ∈ unusable (add_unusable h st) ↔ x = h ∨ x ∈ unusable st).
Proof. simpl. set_solver. Qed.

Section RetentionRules.

Variables (clock : Reading → Z) (config : Config) (i : nat).
Variables (status : Status) (s : Store).
Variables (st : Sets) (h : nat) (m : Machine) (stats : gmap string (gmap string Z)).

Let depl := s !!! h.
Let type_name := get_depl_arg depl "type".
Let grace_period :=
  match systemTypes config !! type_name with
  | Some tc => default 0 (gracePeriod tc)
  | None => 0
  end.

(** The deployment reaches the dispatcher lookup of line 197. *)
Hypothesis not_selected : h ∉ kept st.
Hypothesis active : depl_state depl ∈ [UP; STARTING].
Hypothesis little_time_left : get_depl_time_left (clock (PaidTimeKept i)) depl < 30 * 60.
Hypothesis the_machine : machines depl !! "machine" = Some m.
Hypothesis the_stats : machine_stats status = Some stats.

Let machine_status := default ∅ (stats !! ("root@" +:+ ssh_name m)).

Lemma retention_step_lookup :
  retention_step clock config i status s st h =
    if has_current_jobs machine_status then
      Ok (if decide (grace_period > 0) then add_unusable h (add_in_use h st)
          else add_in_use h st)
    else
      let last_active :=
        match machineTypes status !! type_name with
        | Some ts => default 0 (lastActive ts)
        | None => 0
        end in
      last_active ←
        (if decide (last_active = 0)
         then up ← subscript "uptime" (uptime status); Ok (clock (Imputed i) - up + 1800)
         else Ok last_active);
      if decide (clock (Idle i) - last_active < grace_period) then Ok (add_in_use h st)
      else Ok (add_expired h st).
Proof.
  unfold retention_step. fold depl. fold type_name. fold grace_period.
  rewrite decide_False by done.
  rewrite decide_False by (intros Hn; by apply Hn).
  rewrite decide_False by lia.
  rewrite the_stats. simpl. rewrite the_machine. fold machine_status.
  reflexivity.
Qed.

(** C1, as the code has it. A deployment that was not selected, is up or
    starting, has less than [30*60] seconds left and has current jobs on
    the dispatcher is retained in [in_use]; it is added to [unusable]
    exactly when the grace period of its type is greater than [0] (so with
    [gracePeriod = 0] it is not, and stays in the roster). *)
Theorem active_deployment_retained :
  default 0 (machine_status !! "currentJobs") ≠ 0 →
  ∃ st',
    retention_step clock config i status s st h = Ok st'
    ∧ h ∈ kept st'
    ∧ expired st' = expired st
    ∧ (h ∈ unusable st' ↔ h ∈ unusable st ∨ grace_period > 0).
Proof.
  intros Hjobs. rewrite retention_step_lookup.
  assert (has_current_jobs machine_status = true) as ->.
  { unfold has_current_jobs. apply andb_true_iff. split; apply bool_decide_eq_true_2; [|done].
    intros Hempty. rewrite Hempty, lookup_empty in Hjobs. done. }
  eexists. split; [reflexivity|].
  destruct (decide (grace_period > 0)) as [Hg|Hg].
  - split; [apply elem_of_add_unusable, elem_of_add_in_use; by left|].
    split; [done|].
    split; [by right|]. intros _. apply elem_of_add_unusable. by left.
  - split; [apply elem_of_add_in_use; by left|].
    split; [done|].
    split; [intros Hin; left; by apply elem_of_add_in_use in Hin|].
    intros [Hin|?]; [by apply elem_of_add_in_use|done].
Qed.

(** C9. With no current jobs, [lastActive] is taken from the status of
    the type and, when that is missing or zero, imputed as
    [now - uptime + 1800], [now] being the clock as line 213 reads it; the
    deployment is retained in [in_use] exactly when
    [now - lastActive < gracePeriod], [now] being the clock as line 215
    reads it, and is otherwise moved to [expired]. *)
Theorem grace_period_rule (up : Z) :
  let reported :=
    match machineTypes status !! type_name with
    | Some ts => default 0 (lastActive ts)
    | None => 0
    end in
  let last_active :=
    if decide (reported = 0) then clock (Imputed i) - up + 1800 else reported in
  let now := clock (Idle i) in
  has_current_jobs machine_status = false →
  uptime status = Some up →
  ∃ st',
    retention_step clock config i status s st h = Ok st'
    ∧ (now - last_active < grace_period → st' = add_in_use h st)
    ∧ (¬ now - last_active < grace_period → st' = add_expired h st)
    ∧ (h ∈ kept st' ↔ now - last_active < grace_period)
    ∧ (h ∈ expired st' ↔ h ∈ expired st ∨ ¬ now - last_active < grace_period).
Proof.
  intros reported last_active now Hjobs Hup.
  rewrite retention_step_lookup, Hjobs. simpl. fold reported.
  rewrite Hup. simpl.
  assert ((if decide (reported = 0) then Ok (clock (Imputed i) - up + 1800) else Ok reported)
          = Ok last_active) as ->.
  { unfold last_active. by destruct (decide (reported = 0)). }
  simpl. fold now. destruct (decide (now - last_active < grace_period)) as [Hlt|Hge].
  - eexists. split; [reflexivity|].
    split; [done|]. split; [done|].
    split; [split; [done|]; intros _; apply elem_of_add_in_use; by left|].
    split; [intros Hin; left; by apply elem_of_add_in_use in Hin|].
    intros [Hin|?]; [by apply elem_of_add_in_use|done].
  - eexists. split; [reflexivity|].
    split; [done|]. split; [done|].
    split.
    + split; [|done]. intros Hin%elem_of_add_expired. by destruct not_selected.
    + split; [by right|]. intros _. apply elem_of_add_expired. by left.
Qed.

End RetentionRules.

(** The failing input of C1: [gracePeriod = 0] and [currentJobs = 2].  The
    deployment is kept, and it is not made unusable. *)
Lemma active_deployment_retained_witness :
  let config := Scenario.config_for "x86_64-linux:" (Scenario.policy None None (Some 0) None) in
  let s : Store := {[ 0%nat := Scenario.worker UP None ]} in
  ∃ st',
    retention_step Scenario.clock config 0 (Scenario.status_with None Scenario.busy_stats)
      s Scenario.no_sets 0 = Ok st'
    ∧ 0%nat ∈ kept st'
    ∧ expired st' = ∅
    ∧ (0%nat ∈ unusable st' ↔ 0%nat ∈ (∅ : gset nat) ∨ 0 > 0).
Proof.
  intros config s.
  refine (active_deployment_retained Scenario.clock config 0%nat
            (Scenario.status_with None Scenario.busy_stats) s Scenario.no_sets 0%nat
            (Scenario.machine UP None) Scenario.busy_stats _ _ _ _ _ _).
  - apply not_elem_of_empty.
  - vm_compute. apply list_elem_of_here.
  - reflexivity.
  - reflexivity.
  - reflexivity.
  - vm_compute. discriminate.
Defined.

(** The grace rule with an imputed [lastActive] and a clock that moves on
    by a second between line 213 and line 215: the dispatcher has been up
    for 1799 seconds, the type has no grace period, and the deployment is
    expired. *)
Lemma grace_period_rule_witness :
  let config := Scenario.config_for "x86_64-linux:" (Scenario.policy None None None None) in
  let s : Store := {[ 0%nat := Scenario.worker UP None ]} in
  let status := {| uptime := Some 1799; machineTypes := ∅;
                   machine_stats := Some Scenario.idle_stats |} in
  let clock r := match r with Idle _ => Scenario.now + 1 | _ => Scenario.now end in
  ∃ st',
    retention_step clock config 0 status s Scenario.no_sets 0 = Ok st'
    ∧ (Scenario.now + 1 - (Scenario.now - 1799 + 1800) < 0
       → st' = add_in_use 0 Scenario.no_sets)
    ∧ (¬ Scenario.now + 1 - (Scenario.now - 1799 + 1800) < 0
       → st' = add_expired 0 Scenario.no_sets)
    ∧ (0%nat ∈ kept st' ↔ Scenario.now + 1 - (Scenario.now - 1799 + 1800) < 0)
    ∧ (0%nat ∈ expired st' ↔
         0%nat ∈ (∅ : gset nat)
         ∨ ¬ Scenario.now + 1 - (Scenario.now - 1799 + 1800) < 0).
Proof.
  intros config s status clock.
  refine (grace_period_rule clock config 0%nat status s Scenario.no_sets 0%nat
            (Scenario.machine UP None) Scenario.idle_stats _ _ _ _ _ 1799 _ _).
  - apply not_elem_of_empty.
  - vm_compute. apply list_elem_of_here.
  - reflexivity.
  - reflexivity.
  - reflexivity.
  - reflexivity.
  - reflexivity.
Defined.

Lemma foldM_not_raise {A B} (f : A → B → result A) (e : exn) (l : list B) (a : A) :
  (∀ a b, f a b ≠ Raise e) → foldM f a l ≠ Raise e.
Proof.
  intros Hf. revert a. induction l as [|b l IH]; intros a; simpl; [done|].
  destruct (f a b) as [a'| e' |] eqn:Hfa; simpl; [apply IH| |done].
  intros [= ->]. by apply (Hf a b).
Qed.

Lemma foldMi_not_raise {A B} (f : nat → A → B → result A) (e : exn) (l : list B) :
  (∀ i a b, f i a b ≠ Raise e) → ∀ i a, foldMi f i a l ≠ Raise e.
Proof.
  intros Hf. induction l as [|b l IH]; intros i a; simpl; [done|].
  destruct (f i a b) as [a'| e' |] eqn:Hfa; simpl; [apply IH| |done].
  intros [= ->]. by apply (Hf i a b).
Qed.

Lemma retention_step_no_attribute_error clock config i status s st h :
  retention_step clock config i status s st h ≠ Raise AttributeError.
Proof.
  unfold retention_step.
  destruct (decide (h ∈ kept st)); [done|].
  destruct (decide (depl_state (s !!! h) ∉ [UP; STARTING])) as [|Hact]; [done|].
  destruct (decide (get_depl_time_left _ (s !!! h) >= 30 * 60)); [done|].
  destruct (machine_stats status) as [stats|]; simpl; [|done].
  destruct (state_active_has_machine (s !!! h)) as [m ->].
  { by destruct (decide (depl_state (s !!! h) ∈ [UP; STARTING])). }
  destruct (has_current_jobs _); [done|].
  destruct (decide (_ = 0)); simpl.
  - destruct (uptime status); simpl; [|done]. by destruct (decide _).
  - by destruct (decide _).
Qed.

(** C10, as the code has it. [depl_state] reports [MISSING] whenever the
    deployment has no machine object, so a deployment that is up or
    starting has one; the retention pass reads the machine only after it
    found the deployment up or starting, and never fails on an absent
    machine. *)
Theorem machine_present_at_lookup :
  (∀ d, machines d !! "machine" = None → depl_state d = MISSING)
  ∧ (∀ d, depl_state d ∈ [UP; STARTING] → is_Some (machines d !! "machine"))
  ∧ (∀ clock config i status s st h,
       retention_step clock config i status s st h ≠ Raise AttributeError)
  ∧ (∀ clock config status s depls in_use,
       retention clock config status s depls in_use ≠ Raise AttributeError).
Proof.
  split; [intros d Hd; unfold depl_state; by rewrite Hd|].
  split; [apply state_active_has_machine|].
  split; [apply retention_step_no_attribute_error|].
  intros. apply foldMi_not_raise. intros. apply retention_step_no_attribute_error.
Qed.

(** C10 as stated fails in one direction: [depl_state] also reports
    [MISSING] for a machine object whose own state is [MISSING]. *)
Lemma missing_state_with_machine :
  ¬ (∀ d : Deployment, depl_state d = MISSING ↔ machines d !! "machine" = None).
Proof.
  intros Hiff.
  pose proof (proj1 (Hiff (Scenario.worker MISSING None)) eq_refl) as Hnone.
  discriminate Hnone.
Qed.

(** *** Names of new deployments *)

Lemma candidate_inj (prefix : string) (i j : nat) :
  candidate prefix i = candidate prefix j → i = j.
Proof.
  unfold candidate, Str.of_nat. intros Heq.
  apply (inj (String.app prefix)) in Heq.
  apply (inj (String.app "-")) in Heq.
  by apply (inj pretty) in Heq.
Qed.

(** The search of [get_new_deployment_name] from the counter [i]: any list
    [aux] that holds the taken candidates from [i] on bounds the rounds. *)
Lemma find_name_spec (prefix : string) (names : list (option string)) :
  ∀ (fuel i : nat) (aux : list (option string)),
    (∀ j, (i ≤ j)%nat → Some (candidate prefix j) ∈ names → Some (candidate prefix j) ∈ aux) →
    (length aux < fuel)%nat →
    ∃ n, (i ≤ n)%nat
         ∧ find_name fuel prefix names i = Ok (candidate prefix n)
         ∧ (Some (candidate prefix n) ∉ names)
         ∧ ∀ j, (i ≤ j < n)%nat → Some (candidate prefix j) ∈ names.
Proof.
  induction fuel as [|fuel IH]; intros i aux Haux Hlen; [lia|].
  simpl. destruct (decide (Some (candidate prefix i) ∈ names)) as [Hin|Hnin].
  - destruct (IH (S i) (filter (λ x, x ≠ Some (candidate prefix i)) aux))
      as (n & Hle & Hfind & Hfree & Hbelow).
    + intros j Hj Hjn. apply list_elem_of_filter. split; [|apply Haux; [lia|done]].
      intros [= Heq]. apply candidate_inj in Heq. lia.
    + assert (length (filter (λ x, x ≠ Some (candidate prefix i)) aux) < length aux)%nat.
      { apply (length_filter_lt _ _ (Some (candidate prefix i))); [apply Haux; [lia|done]|].
        intros Hne. by apply Hne. }
      lia.
    + exists n. split; [lia|]. split; [done|]. split; [done|].
      intros j Hj. destruct (decide (j = i)) as [->|]; [done|]. apply Hbelow. lia.
  - exists i. split; [lia|]. split; [done|]. split; [done|]. intros j Hj. lia.
Qed.

(** [get_new_deployment_name] returns: the name it gives is ["<prefix>-<n>"]
    for the least [n] whose name no deployment of the list it was given
    carries. *)
Lemma get_new_deployment_name_spec (prefix : string) (depls : list Deployment) :
  ∃ n, get_new_deployment_name prefix depls = Ok (candidate prefix n)
       ∧ (Some (candidate prefix n) ∉ name <$> depls)
       ∧ ∀ j, (j < n)%nat → Some (candidate prefix j) ∈ name <$> depls.
Proof.
  unfold get_new_deployment_name.
  destruct (find_name_spec prefix (name <$> depls) (S (length (name <$> depls))) 0
              (name <$> depls)) as (n & _ & Hfind & Hfree & Hbelow); [done|lia|].
  exists n. split; [done|]. split; [done|]. intros j Hj. apply Hbelow. lia.
Qed.

(** *** The selection loop *)

Lemma count_up_le_length s l : (count_up s l ≤ length l)%nat.
Proof. apply length_filter. Qed.

Lemma count_up_cons s h l : (count_up s l ≤ count_up s (h :: l))%nat.
Proof.
  unfold count_up. rewrite filter_cons. destruct (decide (is_up s h)); simpl; lia.
Qed.

Lemma count_up_mono (s s' : Store) (l : list nat) :
  (∀ h, h ∈ l → is_up s' h → is_up s h) → (count_up s' l ≤ count_up s l)%nat.
Proof.
  unfold count_up. induction l as [|h l IH]; intros Hup; [done|].
  rewrite !filter_cons.
  assert (length (filter (is_up s') l) ≤ length (filter (is_up s) l))%nat as Hl.
  { apply IH. intros h' Hh'. apply Hup. by right. }
  destruct (decide (is_up s' h)) as [Hs'|Hs'].
  - rewrite decide_True by (apply Hup; [by left|done]). simpl. lia.
  - destruct (decide (is_up s h)); simpl; lia.
Qed.

Lemma count_up_demoted (s s' : Store) (h : nat) (l : list nat) :
  is_up s h → ¬ is_up s' h →
  (∀ h', h' ∈ h :: l → is_up s' h' → is_up s h') →
  (count_up s' (h :: l) < count_up s (h :: l))%nat.
Proof.
  intros Hs Hs' Hup.
  assert (count_up s' l ≤ count_up s l)%nat as Hl.
  { apply count_up_mono. intros h' Hh'. apply Hup. by right. }
  unfold count_up in *.
  rewrite (filter_cons_True (is_up s)) by done.
  rewrite (filter_cons_False (is_up s')) by done.
  simpl. lia.
Qed.

Lemma sort_existing_perm s l : sort_existing s l ≡ₚ l.
Proof. unfold sort_existing. apply filter_app_complement. Qed.

Lemma sort_existing_rounds s l :
  length (sort_existing s l) = length l
  ∧ count_up s (sort_existing s l) = count_up s l.
Proof.
  split.
  - by rewrite sort_existing_perm.
  - unfold count_up. by rewrite sort_existing_perm.
Qed.

Lemma lookup_total_alter_proj {A} (p : Deployment → A) (f : Deployment → Deployment)
    (s : Store) (h h' : nat) :
  (∀ d, p (f d) = p d) → p (alter f h s !!! h') = p (s !!! h').
Proof.
  intros Hf. unfold lookup_total, map_lookup_total.
  destruct (decide (h = h')) as [->|Hne].
  - rewrite lookup_alter_eq. destruct (s !! h'); simpl; [apply Hf|done].
  - by rewrite lookup_alter_ne.
Qed.

Lemma lookup_total_alter_machines (f : Deployment → Deployment) (s : Store) (h h' : nat) :
  (∀ d, machines (f d) = machines d) →
  machines (alter f h s !!! h') = machines (s !!! h').
Proof. apply lookup_total_alter_proj. Qed.

Lemma lookup_total_alter_name (f : Deployment → Deployment) (s : Store) (h h' : nat) :
  (∀ d, name (f d) = name d) →
  name (alter f h s !!! h') = name (s !!! h').
Proof. apply lookup_total_alter_proj. Qed.

Lemma is_up_alter_machines (f : Deployment → Deployment) (s : Store) (h h' : nat) :
  (∀ d, machines (f d) = machines d) →
  is_up (alter f h s) h' ↔ is_up s h'.
Proof.
  intros Hf. unfold is_up, depl_state.
  by rewrite lookup_total_alter_machines.
Qed.

Lemma is_up_alter_ne (f : Deployment → Deployment) (s : Store) (h h' : nat) :
  h ≠ h' → is_up (alter f h s) h' ↔ is_up s h'.
Proof.
  intros Hne. unfold is_up, lookup_total, map_lookup_total.
  by rewrite lookup_alter_ne.
Qed.

Section Selection.

Variables (config : Config) (check : nat → Machine → reply Machine).
Variables (nix_string abspath abs_nix_path : string → string).
Variables (type_name : string) (type_config : TypeConfig).

Let step := select_step config check nix_string abspath abs_nix_path type_name type_config.

Lemma machines_set_exprs e p d : machines (set_exprs e p d) = machines d.
Proof. done. Qed.

Lemma accept_spec (h : nat) (st : Sel) :
  let '(st', fl) := accept abspath abs_nix_path type_config h st in
  store st' = alter (set_exprs [abspath (nixopsExpr type_config)]
                       (abs_nix_path <$> default [] (nixPath type_config))) h (store st)
  ∧ depls st' = depls st ∧ all_depls st' = all_depls st
  ∧ existing st' = existing st ∧ created st' = created st
  ∧ have st' = have st + 1
  ∧ in_use st' = {[h]} ∪ in_use st
  ∧ (fl = Break ↔ created st >= 1).
Proof.
  unfold accept. simpl. repeat split; try done.
  - destruct (decide (created st >= 1)); [done|discriminate].
  - intros Hc. by rewrite decide_True.
Qed.

(** A round with an empty pool creates one deployment and leaves the loop. *)
Lemma select_step_create (st : Sel) :
  existing st = [] → 0 ≤ created st →
  ∃ st', step st = Ok (st', Break)
         ∧ one_created (tag config) st st'
         ∧ created st' = created st + 1
         ∧ have st' = have st + 1.
Proof.
  intros Hex Hcr. unfold step, select_step, create. rewrite Hex.
  destruct (get_new_deployment_name_spec (tag config) ((λ h, store st !!! h) <$> depls st))
    as (n & -> & Hfree & Hbelow).
  rewrite <- list_fmap_compose in Hfree, Hbelow.
  simpl.
  match goal with
  | |- context [accept _ _ _ ?h ?st1] =>
      pose proof (accept_spec h st1) as Hacc;
      destruct (accept abspath abs_nix_path type_config h st1) as [st' fl]
  end.
  simpl in Hacc. destruct Hacc as (Hs & Hd & Ha & _ & Hc & Hh & _ & Hfl).
  assert (fl = Break) as -> by (apply Hfl; lia).
  exists st'. split; [done|]. split; [|done].
  set (h := fresh (dom (store st))) in *.
  assert (h ∉ dom (store st)) as Hfresh by apply is_fresh.
  exists h, n. split; [done|].
  split; [by rewrite Hs, dom_alter_L, dom_insert_L|].
  split; [done|]. split; [done|].
  split; [|done].
  rewrite Hs. unfold lookup_total, map_lookup_total.
  by rewrite lookup_alter_eq, lookup_insert_eq.
Qed.

(** A round with a candidate at hand creates nothing, and when the loop
    goes on, fewer rounds are left; the round raises only what the
    liveness check raises. *)
Lemma select_step_existing (st : Sel) :
  existing st ≠ [] →
  match step st with
  | Ok (st', fl) =>
      unchanged_inventory st st'
      ∧ created st' = created st
      ∧ have st ≤ have st' ≤ have st + 1
      ∧ (fl = Break → created st >= 1)
      ∧ (fl = Continue → (rounds_left st' < rounds_left st)%nat)
  | Raise e => ∃ h m, check h m = Raises e
  | OutOfFuel => False
  end.
Proof.
  intros Hex. unfold step, select_step.
  destruct (existing st) as [|h rest] eqn:Hexisting; [done|clear Hex].
  unfold rounds_left. rewrite Hexisting.
  destruct (decide (depl_state (store st !!! h) = UP)) as [Hup|Hnup].
  - destruct (machines (store st !!! h) !! "machine") as [m|] eqn:Hm;
      [|unfold depl_state in Hup; by rewrite Hm in Hup].
    simpl. destruct (check h m) as [m'|e] eqn:Hcheck; simpl; [|by exists h, m].
    set (s1 := alter (alter_machine (λ _, m')) h (store st)).
    assert (∀ h', is_up s1 h' → is_up (store st) h') as Hmono.
    { intros h' Hh'. destruct (decide (h = h')) as [<-|Hne]; [done|].
      by apply (is_up_alter_ne (alter_machine (λ _, m')) (store st) h h' Hne) in Hh'. }
    destruct (decide (depl_state (s1 !!! h) ≠ UP)) as [Hdem|Hstill].
    + simpl.
      split; [unfold unchanged_inventory, s1; simpl; rewrite dom_alter_L; repeat split; try done; intros; by apply lookup_total_alter_name|].
      split; [done|]. split; [lia|]. split; [done|]. intros _.
      rewrite Hexisting.
      destruct (sort_existing_rounds s1 (h :: rest)) as [-> ->].
      assert (count_up s1 (h :: rest) < count_up (store st) (h :: rest))%nat; [|simpl length; lia].
      apply count_up_demoted; [done|done|]. intros h' _. apply Hmono.
    + pose proof (accept_spec h (with_existing rest (with_store s1 st))) as Hacc.
      destruct (accept _ _ _ h _) as [st' fl]. simpl in Hacc.
      destruct Hacc as (Hs & Hd & Ha & He & Hc & Hh & _ & Hfl).
      split; [unfold unchanged_inventory; rewrite Hs, Hd, Ha; unfold s1; rewrite !dom_alter_L; repeat split; try done; intros; by rewrite !lookup_total_alter_name|].
      split; [done|]. split; [lia|]. split; [intros Hb; by apply Hfl in Hb|]. intros _.
      rewrite Hs, He.
      assert (count_up (alter (set_exprs [abspath (nixopsExpr type_config)]
                (abs_nix_path <$> default [] (nixPath type_config))) h s1) rest
              ≤ count_up (store st) (h :: rest))%nat; [|simpl; lia].
      etrans; [|apply count_up_cons]. apply count_up_mono.
      intros h' _ Hh'. apply Hmono.
      by apply is_up_alter_machines in Hh'.
  - destruct (decide (depl_state (store st !!! h) = MISSING)) as [Hmiss|Hother].
    + simpl.
      split; [done|]. split; [done|]. split; [lia|]. split; [done|]. intros _.
      pose proof (count_up_cons (store st) h rest). lia.
    + pose proof (accept_spec h (with_existing rest st)) as Hacc.
      destruct (accept _ _ _ h _) as [st' fl]. simpl in Hacc.
      destruct Hacc as (Hs & Hd & Ha & He & Hc & Hh & _ & Hfl).
      split; [unfold unchanged_inventory; rewrite Hs, Hd, Ha, !dom_alter_L; repeat split; try done; intros; by rewrite !lookup_total_alter_name|].
      split; [done|]. split; [lia|]. split; [intros Hb; by apply Hfl in Hb|]. intros _.
      rewrite Hs, He.
      assert (count_up (alter (set_exprs [abspath (nixopsExpr type_config)]
                (abs_nix_path <$> default [] (nixPath type_config))) h (store st)) rest
              ≤ count_up (store st) (h :: rest))%nat; [|simpl; lia].
      etrans; [|apply count_up_cons]. apply count_up_mono.
      intros h' _ Hh'.
      by apply is_up_alter_machines in Hh'.
Qed.

Lemma unchanged_then_created (prefix : string) (st st1 st' : Sel) :
  unchanged_inventory st st1 → one_created prefix st1 st' → one_created prefix st st'.
Proof.
  intros (Hdom & Hd & Ha & Hn) (h & n & Hfresh & Hdom' & Hd' & Ha' & Hname & Hfree & Hbelow).
  assert ((λ h, name (store st1 !!! h)) <$> depls st1
          = (λ h, name (store st !!! h)) <$> depls st) as Hnames.
  { rewrite Hd. apply list_fmap_ext. intros _ h' _. apply Hn. }
  exists h, n. rewrite <- Hnames, <- Hdom, <- Hd, <- Ha. done.
Qed.

Lemma unchanged_inventory_trans (st st1 st' : Sel) :
  unchanged_inventory st st1 → unchanged_inventory st1 st' → unchanged_inventory st st'.
Proof.
  intros (Hdom & Hd & Ha & Hn) (Hdom' & Hd' & Ha' & Hn').
  repeat split; [congruence..|]. intros h. by rewrite Hn', Hn.
Qed.

(** The loop ends, and it raises only what the liveness check raises:
    when it returns, either it left the inventory as it was and [have] has
    reached [allowed], or it created one deployment in its last round. *)
Lemma select_loop_spec (allowed : Z) :
  ∀ (fuel : nat) (st : Sel),
    created st = 0 → (rounds_left st < fuel)%nat →
    match select_loop config check nix_string abspath abs_nix_path fuel type_name
            type_config allowed st with
    | Ok st' =>
        (unchanged_inventory st st' ∧ created st' = 0 ∧ allowed ≤ have st')
        ∨ (one_created (tag config) st st' ∧ created st' = 1 ∧ have st' ≤ allowed)
    | Raise e => ∃ h m, check h m = Raises e
    | OutOfFuel => False
    end.
Proof.
  induction fuel as [|fuel IH]; intros st Hcr Hfuel; [lia|].
  simpl. destruct (decide (have st < allowed)) as [Hlt|Hge].
  - destruct (existing st) as [|h rest] eqn:Hex.
    + destruct (select_step_create st Hex) as (st' & Hstep & Hone & Hcr' & Hhave); [lia|].
      unfold step in Hstep. rewrite Hstep. simpl.
      right. split; [done|]. split; lia.
    + pose proof (select_step_existing st) as Hstep. unfold step in Hstep.
      destruct (select_step _ _ _ _ _ _ _ st) as [[st1 fl]|e|]; simpl;
        [|apply Hstep; by rewrite Hex|apply Hstep; by rewrite Hex].
      destruct Hstep as (Hinv & Hcr1 & Hhave & Hbr & Hco); [by rewrite Hex|].
      destruct fl.
      * specialize (IH st1).
        destruct (select_loop _ _ _ _ _ fuel _ _ _ st1) as [st'|e|].
        -- destruct IH as [(Hinv' & ? & ?)|(Hone & ? & ?)];
             [lia|specialize (Hco eq_refl); lia| |].
           ++ left. split; [by eapply unchanged_inventory_trans|done].
           ++ right. split; [by eapply unchanged_then_created|done].
        -- apply IH; [lia|specialize (Hco eq_refl); lia].
        -- apply IH; [lia|specialize (Hco eq_refl); lia].
      * specialize (Hbr eq_refl). lia.
  - left. split; [done|]. split; [done|lia].
Qed.

End Selection.

(** Line 106 raises nothing but [ZeroDivisionError] and [OverflowError]. *)
Lemma size_type_raises mt type_name tc :
  match size_type mt type_name tc with
  | Ok _ => True
  | Raise e =>
      (e = ZeroDivisionError ∧ runnablesPerMachine tc = Some 0) ∨ e = OverflowError
  | OutOfFuel => False
  end.
Proof.
  unfold size_type, sizer.
  match goal with
  | |- context [float_ceil_div ?a ?b] =>
      pose proof (float_ceil_div_raises a b) as Hr; destruct (float_ceil_div a b) as [w|e|]
  end; simpl; [done| |done].
  destruct Hr as [[-> Hz]|Hr]; [left; split; [done|]|by right].
  destruct (runnablesPerMachine tc) as [r|]; simpl in Hz; [by subst|done].
Qed.

(** The body of the loop over the machine types, for every type. *)
Lemma provision_type_spec config check nix_string abspath abs_nix_path mt st type_name :
  match systemTypes config !! type_name with
  | None =>
      provision_type config check nix_string abspath abs_nix_path mt st type_name = Ok st
  | Some type_config =>
      match size_type mt type_name type_config with
      | Ok (wanted, allowed) =>
          match provision_type config check nix_string abspath abs_nix_path mt st
                  type_name with
          | Ok st' =>
              (unchanged_inventory st st' ∧ created st' = 0 ∧ allowed ≤ have st')
              ∨ (one_created (tag config) st st' ∧ created st' = 1 ∧ have st' ≤ allowed)
          | Raise e => ∃ h m, check h m = Raises e
          | OutOfFuel => False
          end
      | Raise e =>
          (e = ZeroDivisionError ∨ e = OverflowError)
          ∧ provision_type config check nix_string abspath abs_nix_path mt st type_name
            = Raise e
      | OutOfFuel => False
      end
  end.
Proof.
  unfold provision_type.
  destruct (systemTypes config !! type_name) as [type_config|]; [|done].
  pose proof (size_type_raises mt type_name type_config) as Hsize.
  destruct (size_type mt type_name type_config) as [[wanted allowed]|e|]; simpl;
    [|split; [destruct Hsize as [[? _]|?]; auto|done]|done].
  match goal with
  | |- context [select_loop _ _ _ _ _ (select_fuel ?st0) _ _ _ ?st0] =>
      pose proof (select_loop_spec config check nix_string abspath abs_nix_path
                    type_name type_config allowed (select_fuel st0) st0) as Hloop;
      destruct (select_loop config check nix_string abspath abs_nix_path
                  (select_fuel st0) type_name type_config allowed st0) as [st'|e|]
  end.
  - destruct Hloop as [((Hdom & Hd & Ha & Hn) & ? & ?)|((h & n & Hone) & ? & ?)].
    + done.
    + unfold rounds_left, select_fuel. simpl.
      match goal with |- context [count_up ?s ?l] => pose proof (count_up_le_length s l) end.
      lia.
    + left. done.
    + right. split; [|done]. by exists h, n.
  - apply Hloop; [done|].
    unfold rounds_left, select_fuel. simpl.
    match goal with |- context [count_up ?s ?l] => pose proof (count_up_le_length s l) end.
    lia.
  - apply Hloop; [done|].
    unfold rounds_left, select_fuel. simpl.
    match goal with |- context [count_up ?s ?l] => pose proof (count_up_le_length s l) end.
    lia.
Qed.

(** With a liveness check that returns, the loop of a type returns. *)
Lemma provision_type_returns config check nix_string abspath abs_nix_path mt st type_name
    type_config wanted allowed :
  (∀ h m, ∃ m', check h m = Returns m') →
  systemTypes config !! type_name = Some type_config →
  size_type mt type_name type_config = Ok (wanted, allowed) →
  ∃ st',
    provision_type config check nix_string abspath abs_nix_path mt st type_name = Ok st'
    ∧ ((unchanged_inventory st st' ∧ created st' = 0 ∧ allowed ≤ have st')
       ∨ (one_created (tag config) st st' ∧ created st' = 1 ∧ have st' ≤ allowed)).
Proof.
  intros Hcheck Htc Hsz.
  pose proof (provision_type_spec config check nix_string abspath abs_nix_path mt st
                type_name) as Hspec.
  rewrite Htc, Hsz in Hspec.
  destruct (provision_type _ _ _ _ _ _ _ _) as [st'|e|]; [by exists st'| |done].
  destruct Hspec as (h & m & Hr). destruct (Hcheck h m) as [m' Hm']. congruence.
Qed.

(** C5. For every machine type the selection loop ends, and it creates at
    most one deployment: a type without a policy entry is skipped, the
    sizer raises [ZeroDivisionError] or [OverflowError] before the loop is
    entered, and otherwise the loop raises only what a liveness check
    raised, and when it returns either no deployment was created and
    [have] has reached [allowed], or exactly one deployment was created,
    appended to both inventories under a fresh handle, and the loop was
    left at once.  With liveness checks that return, the loop returns.
    The cold start with [allowed = 3] shows a run ending with [have = 1]. *)
Theorem one_creation_per_type :
  (∀ config check nix_string abspath abs_nix_path mt st type_name,
     match systemTypes config !! type_name with
     | None =>
         provision_type config check nix_string abspath abs_nix_path mt st type_name = Ok st
     | Some type_config =>
         match size_type mt type_name type_config with
         | Ok (wanted, allowed) =>
             match provision_type config check nix_string abspath abs_nix_path mt st
                     type_name with
             | Ok st' =>
                 (unchanged_inventory st st' ∧ created st' = 0 ∧ allowed ≤ have st')
                 ∨ (one_created (tag config) st st' ∧ created st' = 1
                    ∧ have st' ≤ allowed)
             | Raise e => ∃ h m, check h m = Raises e
             | OutOfFuel => False
             end
             ∧ ((∀ h m, ∃ m', check h m = Returns m') →
                ∃ st',
                  provision_type config check nix_string abspath abs_nix_path mt st
                    type_name = Ok st'
                  ∧ ((unchanged_inventory st st' ∧ created st' = 0 ∧ allowed ≤ have st')
                     ∨ (one_created (tag config) st st' ∧ created st' = 1
                        ∧ have st' ≤ allowed)))
         | Raise e =>
             (e = ZeroDivisionError ∨ e = OverflowError)
             ∧ provision_type config check nix_string abspath abs_nix_path mt st type_name
               = Raise e
         | OutOfFuel => False
         end
     end)
  ∧ (let config := Scenario.config_for "x86_64-linux:big"
                     (Scenario.policy None (Some 3) None None) in
     let mt : gmap string TypeStatus :=
       {[ "x86_64-linux:big" := {| runnable := 25; lastActive := None |} ]} in
     let st := {| store := ∅; depls := []; all_depls := []; in_use := ∅;
                  existing := []; have := 0; created := 0 |} in
     size_type mt "x86_64-linux:big" (Scenario.policy None (Some 3) None None) = Ok (3, 3)
     ∧ ∃ st', provision_type config Scenario.check Scenario.quoted id id mt st
                "x86_64-linux:big" = Ok st'
              ∧ depls st' = [0%nat] ∧ created st' = 1 ∧ have st' = 1
              ∧ name (store st' !!! 0%nat) = Some "hydra-provisioned-0").
Proof.
  split.
  - intros config check nix_string abspath abs_nix_path mt st type_name.
    pose proof (provision_type_spec config check nix_string abspath abs_nix_path mt st
                  type_name) as Hspec.
    destruct (systemTypes config !! type_name) as [tc|] eqn:Htc; [|done].
    destruct (size_type mt type_name tc) as [[wanted allowed]|e|] eqn:Hsz; [|done..].
    split; [done|]. intros Hcheck. by eapply provision_type_returns.
  - split; [vm_compute; reflexivity|]. eexists. split; [vm_compute; reflexivity|].
    repeat split; reflexivity.
Qed.

(** C6. The name of a new deployment is ["<tag>-<n>"] for the least [n]
    that is free among the deployments carrying the controller's tag
    ([one_created] above), because [get_new_deployment_name] is given
    [depls] and not [all_depls].  Here the inventory holds one deployment
    with another tag, named ["hydra-provisioned-0"]: the run creates a
    deployment under the same name. *)
Theorem new_name_collides_with_other_tag :
  let foreign := Scenario.deployment "hydra-provisioned-0" "staging" "x86_64-linux:big" None in
  let config := Scenario.config_for "x86_64-linux:big"
                  (Scenario.policy (Some 1) (Some 1) None None) in
  get_depl_arg foreign "tag" ≠ tag config
  ∧ ∃ out,
      Scenario.run config {[ 0%nat := foreign ]} [0%nat]
        (Parsed (JObject (Scenario.status_doc [] ∅))) = Ok out
      ∧ final_depls out = [1%nat]
      ∧ name (final_store out !!! 0%nat) = Some "hydra-provisioned-0"
      ∧ name (final_store out !!! 1%nat) = Some "hydra-provisioned-0".
Proof.
  split; [vm_compute; discriminate|].
  eexists. split; [vm_compute; reflexivity|].
  repeat split; reflexivity.
Qed.

(** *** Roster *)

Lemma split_no_separator (c : ascii) (x : string) :
  Str.contains c x = false → Str.split c x = [x].
Proof.
  induction x as [|a x IH]; simpl; [done|].
  destruct (decide (a = c)); [done|]. intros Hx. by rewrite IH.
Qed.

Lemma split_app_separator (c : ascii) (x r : string) :
  Str.contains c x = false → Str.split c (x +:+ String c r) = x :: Str.split c r.
Proof.
  induction x as [|a x IH]; simpl.
  - intros _. by rewrite decide_True.
  - destruct (decide (a = c)); [done|]. intros Hx. by rewrite IH.
Qed.

Lemma split_join (c : ascii) (cols : list string) :
  cols ≠ [] → Forall (λ x, Str.contains c x = false) cols →
  Str.split c (Str.join (String c EmptyString) cols) = cols.
Proof.
  intros Hne Hall. induction Hall as [|x l Hx Hl IH]; [done|].
  destruct l as [|y l].
  - simpl. by apply split_no_separator.
  - change (Str.join (String c EmptyString) (x :: y :: l))
      with (x +:+ String c (Str.join (String c EmptyString) (y :: l))).
    rewrite split_app_separator by done. by rewrite IH.
Qed.

Lemma string_app_assoc (a b c : string) : (a +:+ b) +:+ c = a +:+ (b +:+ c).
Proof.
  induction a as [|x a IH]; [done|].
  change (String x ((a +:+ b) +:+ c) = String x (a +:+ (b +:+ c))). by f_equal.
Qed.

Lemma split_nonempty (c : ascii) (s : string) : Str.split c s ≠ [].
Proof.
  destruct s as [|a s]; simpl; [done|].
  destruct (decide (a = c)); [done|]. by destruct (Str.split c s).
Qed.

Lemma join_cons (sep x : string) (l : list string) :
  l ≠ [] → Str.join sep (x :: l) = x +:+ sep +:+ Str.join sep l.
Proof. by destruct l. Qed.

Lemma join_snoc (sep x : string) (l : list string) :
  l ≠ [] → Str.join sep (l ++ [x]) = Str.join sep l +:+ sep +:+ x.
Proof.
  induction l as [|y l IH]; [done|]. intros _.
  destruct l as [|z l]; [done|].
  change ((y :: z :: l) ++ [x])%list with (y :: ((z :: l) ++ [x]))%list.
  rewrite join_cons by done. rewrite IH by done.
  rewrite (join_cons sep y (z :: l)) by done.
  by rewrite !string_app_assoc.
Qed.

(** Splitting at a character and joining with it gives the string back. *)
Lemma join_split (c : ascii) (s : string) :
  Str.join (String c EmptyString) (Str.split c s) = s.
Proof.
  induction s as [|a s IH]; [done|]. simpl.
  destruct (decide (a = c)) as [->|Hne].
  - rewrite join_cons by apply split_nonempty. by rewrite IH.
  - pose proof (split_nonempty c s) as Hs.
    destruct (Str.split c s) as [|h t]; [done|].
    destruct t as [|h' t].
    + simpl in *. by rewrite IH.
    + rewrite join_cons by done. rewrite join_cons in IH by done.
      rewrite <- IH. done.
Qed.

Lemma split1_spec (c : ascii) (s : string) :
  Str.contains c s = true →
  s = (Str.split1 c s).1 +:+ String c (Str.split1 c s).2
  ∧ Str.contains c (Str.split1 c s).1 = false.
Proof.
  induction s as [|a s IH]; simpl; [done|].
  destruct (decide (a = c)) as [->|Hne]; [done|].
  intros Hs. destruct (IH Hs) as [Heq Hno].
  destruct (Str.split1 c s) as [h t]. simpl in *.
  destruct (decide (a = c)); [done|]. split; [|done].
  change (String a s = String a (h +:+ String c t)). by f_equal.
Qed.

Lemma split1_at_end (c : ascii) (s : string) :
  Str.contains c s = false →
  Str.split1 c (s +:+ String c EmptyString) = (s, EmptyString).
Proof.
  induction s as [|a s IH]; simpl.
  - intros _. by rewrite decide_True.
  - destruct (decide (a = c)); [done|]. intros Hs. by rewrite IH.
Qed.

Lemma contains_app_char (c : ascii) (s : string) :
  Str.contains c (s +:+ String c EmptyString) = true.
Proof.
  induction s as [|a s IH]; simpl; [by rewrite decide_True|].
  by destruct (decide (a = c)).
Qed.

Lemma split_fields_free (c : ascii) (s : string) :
  Forall (λ x, Str.contains c x = false) (Str.split c s).
Proof.
  induction s as [|a s IH]; simpl; [by repeat constructor|].
  destruct (decide (a = c)) as [->|Hne]; [by constructor|].
  pose proof (split_nonempty c s) as Hs.
  destruct (Str.split c s) as [|h t]; [done|].
  inversion IH as [|? ? Hh Ht]; subst. constructor; [|done].
  simpl. by rewrite decide_False.
Qed.

Lemma comma_separated_split (text : string) (items : list string) :
  comma_separated text items ↔ items = Str.split comma text.
Proof.
  split.
  - intros (Hne & Hall & <-). symmetry. by apply (split_join comma).
  - intros ->. split; [apply split_nonempty|]. split; [apply split_fields_free|].
    apply (join_split comma).
Qed.

Lemma contains_app (c : ascii) (a b : string) :
  Str.contains c (a +:+ b) = Str.contains c a || Str.contains c b.
Proof.
  induction a as [|x a IH]; [done|]. simpl in *.
  change (String x a +:+ b) with (String x (a +:+ b)). simpl.
  by destruct (decide (x = c)).
Qed.

Lemma cut_at_first_colon_split1 (type_name systems features : string) :
  cut_at_first_colon type_name systems features ↔
  (systems, features)
  = Str.split1 colon (if Str.contains colon type_name then type_name
                      else type_name +:+ ":").
Proof.
  split.
  - intros [Hs [->| [-> ->]]].
    + rewrite contains_app. simpl. rewrite orb_true_r.
      clear -Hs. induction systems as [|a s IH]; simpl in *; [done|].
      destruct (decide (a = colon)); [done|].
      change (String a s +:+ ":" +:+ features) with (String a (s +:+ ":" +:+ features)).
      cbn [Str.split1]. by rewrite <- IH.
    + rewrite Hs. by rewrite split1_at_end.
  - intros Heq.
    assert (Str.contains colon (if Str.contains colon type_name then type_name
                                else type_name +:+ ":") = true) as Hc.
    { destruct (Str.contains colon type_name) eqn:Ht; [done|]. apply contains_app_char. }
    destruct (split1_spec colon _ Hc) as [Hnamed Hsys].
    rewrite <- Heq in Hnamed, Hsys. simpl in *.
    split; [done|].
    destruct (Str.contains colon type_name) eqn:Ht.
    + by left.
    + right. rewrite split1_at_end in Heq by done. by inversion Heq.
Qed.








(** The table leaves no choice: a deployment has at most one roster line. *)
Lemma is_roster_line_unique config b64encode (depl : Deployment) (line line' : string) :
  is_roster_line config b64encode depl line →
  is_roster_line config b64encode depl line' →
  line = line'.
Proof.
  intros (m & tc & sys & feat & sl & fl & key & Hm & Htc & Hcut & Hsys & Hfeat & Hkey
          & _ & _ & -> & _)
         (m' & tc' & sys' & feat' & sl' & fl' & key' & Hm' & Htc' & Hcut' & Hsys' & Hfeat'
          & Hkey' & _ & _ & -> & _).
  rewrite Hm in Hm'. injection Hm' as <-. rewrite Htc in Htc'. injection Htc' as <-.
  apply cut_at_first_colon_split1 in Hcut, Hcut'. rewrite <- Hcut in Hcut'.
  injection Hcut' as -> ->.
  assert (sl = sl') as <-.
  { destruct Hsys as (d & ->%comma_separated_split & ->).
    by destruct Hsys' as (d' & ->%comma_separated_split & ->). }
  assert (fl = fl') as <-.
  { unfold table_features in Hfeat, Hfeat'. destruct (decide (feat = "")); [congruence|].
    apply comma_separated_split in Hfeat, Hfeat'. congruence. }
  assert (key = key') as <-; [|done].
  destruct Hkey as [(k & Hk & Hne & Hb)|[Hk ->]],
           Hkey' as [(k' & Hk' & Hne' & Hb')|[Hk' ->]].
  - rewrite Hk in Hk'. injection Hk' as <-. congruence.
  - destruct Hk' as [Hk'|Hk']; congruence.
  - destruct Hk as [Hk|Hk]; congruence.
  - done.
Qed.




(** The ssh key of a policy entry is copied as it is: a path with a space
    in it gives a line of nine fields. *)
Lemma roster_line_of_nine_fields :
  let tc := {| nixopsExpr := "/etc/hydra/worker.nix"; nixPath := None;
               runnablesPerMachine := None; ignoredRunnables := None;
               minMachines := None; maxMachines := None;
               gracePeriod := None; stopOnIdle := None;
               sshKey := Some "/root/my key"; maxJobs := None; speedFactor := None |} in
  let config := Scenario.config_for "x86_64-linux:" tc in
  let s : Store := {[ 0%nat := Scenario.worker UP None ]} in
  let line := "root@worker-1 x86_64-linux,i686-linux /root/my key 1 1 - - -" +:+ newline in
  roster config Scenario.b64encode s {[ 0%nat ]} ∅ = Ok [line]
  ∧ fields line
    = [ "root@worker-1"; "x86_64-linux,i686-linux"; "/root/my"; "key"; "1"; "1";
        "-"; "-"; "-" ]
  ∧ length (fields line) = 9%nat.
Proof. vm_compute. done. Qed.

(** *** Folding *)

Lemma dict_used_app (a b : list slot) :
  dict_used (a ++ b) = (dict_used a + dict_used b)%nat.
Proof.
  induction a as [|[k [v|]] a IH]; simpl; [done|by rewrite IH..].
Qed.

Lemma dict_used_dead (a : list slot) :
  Forall (λ sl, sl.2 = None) a → dict_used a = 0%nat.
Proof.
  induction 1 as [|[k v] a Hv _ IH]; [done|]. simpl in Hv. by subst.
Qed.

Lemma dict_get_live (k : string) (v : TypeStatus) (d : list slot) :
  (k, Some v) ∈ d → is_Some (dict_get k d).
Proof.
  induction d as [|[k' [v'|]] d IH]; simpl.
  - by intros ?%elem_of_nil.
  - intros [[= -> ->]|Hin]%elem_of_cons.
    + rewrite decide_True by done. eauto.
    + destruct (decide (k' = k)); [eauto|by apply IH].
  - intros [[=]|Hin]%elem_of_cons. by apply IH.
Qed.

Lemma dict_del_length (k : string) (d : list slot) :
  length (dict_del k d) = length d.
Proof.
  induction d as [|[k' [v'|]] d IH]; simpl; [done| |by rewrite IH].
  destruct (decide (k' = k)); simpl; [done|by rewrite IH].
Qed.

Lemma dict_del_app_live (k : string) (a b : list slot) :
  is_Some (dict_get k a) → dict_del k (a ++ b) = (dict_del k a ++ b)%list.
Proof.
  induction a as [|[k' [v'|]] a IH]; simpl.
  - by intros [? [=]].
  - destruct (decide (k' = k)); [done|]. intros Hk. by rewrite IH.
  - intros Hk. by rewrite IH.
Qed.

Lemma dict_used_del (k : string) (d : list slot) :
  is_Some (dict_get k d) → S (dict_used (dict_del k d)) = dict_used d.
Proof.
  induction d as [|[k' [v'|]] d IH]; simpl.
  - by intros [? [=]].
  - destruct (decide (k' = k)); simpl; [done|]. intros Hk. by rewrite IH.
  - apply IH.
Qed.

Lemma dict_used_update (k : string) (f : TypeStatus → TypeStatus) (d : list slot) :
  dict_used (dict_update k f d) = dict_used d.
Proof.
  induction d as [|[k' [v'|]] d IH]; simpl; [done| |done].
  destruct (decide (k' = k)); simpl; [done|by rewrite IH].
Qed.

Lemma dict_get_update (k t : string) (f : TypeStatus → TypeStatus) (d : list slot) :
  is_Some (dict_get k d) → is_Some (dict_get k (dict_update t f d)).
Proof.
  induction d as [|[k' [v'|]] d IH]; simpl; [done| |done].
  destruct (decide (k' = t)) as [->|Hne]; simpl.
  - destruct (decide (t = k)); eauto.
  - destruct (decide (k' = k)); eauto.
Qed.

(** What the iterator finds: dead slots, then the slot it yields. *)
Lemma next_live_Some (d : list slot) :
  ∀ (pos pos' : nat) (k : string),
    next_live pos d = Some (pos', k) →
    ∃ (pre : list slot) (v : TypeStatus),
      Forall (λ sl, sl.2 = None) pre
      ∧ drop pos d = (pre ++ (k, Some v) :: drop pos' d)%list
      ∧ (pos' ≤ length d)%nat
      ∧ (k, Some v) ∈ take pos' d.
Proof.
  induction d as [|[k0 v0] d IH]; intros pos pos' k; simpl; [done|].
  destruct pos as [|p].
  - destruct v0 as [v|].
    + intros [= <- <-]. exists [], v. simpl. rewrite drop_0.
      split; [constructor|]. split; [done|]. split; [lia|by left].
    + destruct (next_live 0 d) as [[p' k']|] eqn:Hn; simpl; [|done].
      intros [= <- <-]. destruct (IH _ _ _ Hn) as (pre & v & Hpre & Hdrop & Hle & Hin).
      exists ((k0, None) :: pre), v. simpl.
      split; [by constructor|]. split; [by rewrite <- Hdrop|]. split; [lia|by right].
  - destruct (next_live p d) as [[p' k']|] eqn:Hn; simpl; [|done].
    intros [= <- <-]. destruct (IH _ _ _ Hn) as (pre & v & Hpre & Hdrop & Hle & Hin).
    exists pre, v. simpl.
    split; [done|]. split; [done|]. split; [lia|by right].
Qed.

Lemma next_live_None (d : list slot) :
  ∀ pos, next_live pos d = None → Forall (λ sl, sl.2 = None) (drop pos d).
Proof.
  induction d as [|[k0 v0] d IH]; intros pos; simpl.
  - intros _. rewrite drop_nil. constructor.
  - destruct pos as [|p].
    + destruct v0 as [v|]; [done|].
      destruct (next_live 0 d) as [[p' k']|] eqn:Hn; simpl; [done|].
      intros _. constructor; [done|]. specialize (IH _ Hn). by rewrite drop_0 in IH.
    + destruct (next_live p d) as [[p' k']|] eqn:Hn; simpl; [done|].
      intros _. by apply IH.
Qed.

Lemma existsb_to_fold_dead (a : list slot) :
  Forall (λ sl, sl.2 = None) a → existsb to_fold a = false.
Proof.
  induction 1 as [|[k v] a Hv _ IH]; [done|]. simpl in *. subst. by rewrite IH.
Qed.

Section Folding.

Variable used : nat.

(** The round that follows a fold into an existing target: the size of the
    dictionary has changed. *)
Lemma squash_loop_size_changed (len pos : nat) (d : list slot) :
  dict_used d ≠ used → squash_loop len pos used d = Raise RuntimeError.
Proof. intros Hne. destruct len; simpl; by rewrite decide_True. Qed.

(** The body on a key that the iterator has just yielded. *)
Lemma squash_body_yielded (pos pos' : nat) (k : string) (d : list slot) :
  next_live pos d = Some (pos', k) →
  dict_used d = used →
  ∃ d', squash_body k d = Ok d'
        ∧ (Str.startswith k "i686-linux" = false → d' = d)
        ∧ (Str.startswith k "i686-linux" = true →
           dict_used d' ≠ used
           ∨ dict_used (drop pos' d') = S (dict_used (drop pos' d))).
Proof.
  intros (pre & v & Hpre & Hdrop & Hle & Hin)%next_live_Some Hused.
  assert (is_Some (dict_get k d)) as Hk.
  { apply (dict_get_live k v). rewrite <- (take_drop pos' d). apply elem_of_app. by left. }
  unfold squash_body. destruct (Str.startswith k "i686-linux"); [|by exists d].
  destruct Hk as [ts Hts]. rewrite Hts.
  eexists. split; [reflexivity|]. split; [done|]. intros _.
  destruct (dict_get (Str.replace k "i686-linux" "x86_64-linux") d) as [tv|] eqn:Htarget.
  - left.
    pose proof (dict_used_del k (dict_update (Str.replace k "i686-linux" "x86_64-linux")
                                   (add_runnable (runnable ts)) d)) as Hdel.
    rewrite dict_used_update in Hdel.
    specialize (Hdel (dict_get_update _ _ _ _ (ex_intro _ ts Hts))). lia.
  - right. unfold dict_set. rewrite Htarget.
    rewrite dict_del_app_live by eauto.
    rewrite drop_app_le by (rewrite dict_del_length; lia).
    rewrite dict_used_app. simpl.
    assert (drop pos' (dict_del k d) = drop pos' d) as ->; [|lia].
    rewrite <- (take_drop pos' d) at 1.
    rewrite dict_del_app_live by (by apply (dict_get_live k v)).
    rewrite drop_app_length'; [done|].
    rewrite dict_del_length, length_take. lia.
Qed.

(** Once more slots with a value lie ahead than keys are due, the loop
    ends in [RuntimeError]. *)
Lemma squash_loop_doomed :
  ∀ (len pos : nat) (d : list slot),
    (len < dict_used (drop pos d))%nat →
    squash_loop len pos used d = Raise RuntimeError.
Proof.
  induction len as [|len IH]; intros pos d Hahead; simpl.
  - destruct (decide (dict_used d ≠ used)); [done|].
    destruct (next_live pos d) as [[pos' k]|] eqn:Hn; [done|].
    apply next_live_None, dict_used_dead in Hn. lia.
  - destruct (decide (dict_used d ≠ used)) as [|Hused]; [done|].
    assert (dict_used d = used) as Hused' by (by destruct (decide (dict_used d = used))).
    destruct (next_live pos d) as [[pos' k]|] eqn:Hn.
    + destruct (squash_body_yielded _ _ _ _ Hn Hused') as (d' & -> & Hsame & Hfold).
      simpl.
      apply next_live_Some in Hn as (pre & v & Hpre & Hdrop & Hle & Hin).
      rewrite Hdrop, dict_used_app, (dict_used_dead pre) in Hahead by done.
      simpl in Hahead.
      destruct (Str.startswith k "i686-linux").
      * destruct (Hfold eq_refl) as [Hne|Hmore].
        -- by apply squash_loop_size_changed.
        -- apply IH. lia.
      * rewrite (Hsame eq_refl). apply IH. lia.
    + apply next_live_None, dict_used_dead in Hn. lia.
Qed.

(** From a state in which as many keys are due as slots with a value lie
    ahead, the loop returns the dictionary as it is when nothing is left
    to fold, and ends in [RuntimeError] otherwise. *)
Lemma squash_loop_balanced :
  ∀ (len pos : nat) (d : list slot),
    dict_used d = used →
    len = dict_used (drop pos d) →
    squash_loop len pos used d
    = if existsb to_fold (drop pos d) then Raise RuntimeError else Ok d.
Proof.
  induction len as [|len IH]; intros pos d Hused Hlen.
  - simpl. rewrite decide_False by (intros Hn; by apply Hn).
    destruct (next_live pos d) as [[pos' k]|] eqn:Hn.
    + apply next_live_Some in Hn as (pre & v & Hpre & Hdrop & Hle & Hin).
      rewrite Hdrop, dict_used_app in Hlen. simpl in Hlen. lia.
    + apply next_live_None in Hn. by rewrite existsb_to_fold_dead.
  - simpl. rewrite decide_False by (intros Hn; by apply Hn).
    destruct (next_live pos d) as [[pos' k]|] eqn:Hn.
    + destruct (squash_body_yielded _ _ _ _ Hn Hused) as (d' & -> & Hsame & Hfold).
      simpl.
      apply next_live_Some in Hn as (pre & v & Hpre & Hdrop & Hle & Hin).
      rewrite Hdrop, dict_used_app, (dict_used_dead pre) in Hlen by done.
      simpl in Hlen.
      rewrite Hdrop, existsb_app, (existsb_to_fold_dead pre) by done.
      simpl. unfold to_fold at 1. simpl.
      destruct (Str.startswith k "i686-linux").
      * simpl. destruct (Hfold eq_refl) as [Hne|Hmore].
        -- by apply squash_loop_size_changed.
        -- apply squash_loop_doomed. lia.
      * simpl. rewrite (Hsame eq_refl). apply IH; [done|lia].
    + apply next_live_None in Hn.
      rewrite (dict_used_dead _ Hn) in Hlen. lia.
Qed.

End Folding.

(** What the folding loop does to a dictionary: nothing when no key begins
    with [i686-linux], and otherwise the run ends in [RuntimeError]. *)
Lemma squash_spec (d : list slot) :
  squash d = if existsb to_fold d then Raise RuntimeError else Ok d.
Proof.
  unfold squash.
  rewrite (squash_loop_balanced (dict_used d) (dict_used d) 0 d) by (by rewrite ?drop_0).
  by rewrite drop_0.
Qed.

(** C8. Folding over the dictionary that is being visited: the first
    round on a key that begins with [i686-linux] does sum its runnable
    count into the [x86_64-linux] key and delete it, but the loop then ends
    in [RuntimeError], and with it the run; so the loop returns only when
    there was nothing to fold.  The roster does append [i686-linux] to a
    systems list that has [x86_64-linux] and lacks [i686-linux]. *)
Theorem folding_aborts_the_run :
  let entries :=
    [ ("i686-linux:", {| runnable := 7; lastActive := None |});
      ("x86_64-linux:", {| runnable := 3; lastActive := None |}) ] in
  squash_body "i686-linux:" (dict_of_entries entries)
    = Ok [ ("i686-linux:", None);
           ("x86_64-linux:", Some {| runnable := 10; lastActive := None |}) ]
  ∧ squash (dict_of_entries entries) = Raise RuntimeError
  ∧ (∀ now config check nix_string abspath abs_nix_path own_modules deploy
       b64encode hand_off s all_depls,
       main now config check nix_string abspath abs_nix_path own_modules deploy
         b64encode hand_off s all_depls
         (Parsed (JObject (Scenario.status_doc entries ∅)))
       = Raise RuntimeError)
  ∧ (∀ d, squash d = if existsb to_fold d then Raise RuntimeError else Ok d)
  ∧ (∀ type_name,
       let named := if Str.contains colon type_name then type_name else type_name +:+ ":" in
       let systems_list := Str.split comma (Str.split1 colon named).1 in
       (systems_and_features type_name).1
       = if bool_decide ("x86_64-linux" ∈ systems_list)
            && bool_decide ("i686-linux" ∉ systems_list)
         then (systems_list ++ ["i686-linux"])%list else systems_list)
  ∧ systems_and_features "x86_64-linux:" = (["x86_64-linux"; "i686-linux"], []).
Proof.
  split; [reflexivity|]. split; [reflexivity|]. split; [reflexivity|].
  split; [apply squash_spec|]. split; [|reflexivity].
  intros type_name named systems_list. unfold systems_and_features.
  fold named. unfold systems_list.
  destruct (Str.split1 colon named) as [systems features]. simpl.
  by destruct (_ && _).
Qed.

(** *** The runs of the scenarios *)

(** The failing input of C1 through the whole run: the busy deployment of
    a type without grace period is not needed, is kept, stays in the
    roster and is not retired. *)
Lemma busy_worker_stays_in_roster :
  let config := Scenario.config_for "x86_64-linux:" (Scenario.policy None None (Some 0) None) in
  let doc := Scenario.status_doc [("x86_64-linux:", {| runnable := 0; lastActive := None |})]
               Scenario.busy_stats in
  ∃ out,
    Scenario.run config {[ 0%nat := Scenario.worker UP None ]} [0%nat] (Parsed (JObject doc))
      = Ok out
    ∧ elements (kept (final_sets out)) = [0%nat]
    ∧ elements (unusable (final_sets out)) = []
    ∧ machines_file out = "root@worker-1 x86_64-linux,i686-linux - 1 1 - - -" +:+ newline
    ∧ calls out = [].
Proof.
  eexists. split; [vm_compute; reflexivity|]. repeat split; reflexivity.
Qed.

(** ** Further properties of the helpers and of the passes *)

(** *** [get_new_deployment_name] *)

(** X1. [get_new_deployment_name] always returns.  Its result is
    ["<prefix>-<n>"] where [n] is the least number whose name none of the
    given deployments carries, and [n] is at most the number of
    deployments; with no deployments the name is ["<prefix>-0"]. *)
Theorem new_name_least_free (prefix : string) (depls : list Deployment) :
  ∃ n : nat,
    get_new_deployment_name prefix depls = Ok (candidate prefix n)
    ∧ (∀ d, d ∈ depls → name d ≠ Some (candidate prefix n))
    ∧ (∀ j, (j < n)%nat → ∃ d, d ∈ depls ∧ name d = Some (candidate prefix j))
    ∧ (n ≤ length depls)%nat
    ∧ (depls = [] → n = 0%nat).
Proof.
  destruct (get_new_deployment_name_spec prefix depls) as (n & Hname & Hfree & Hbelow).
  exists n. split; [done|].
  assert (∀ j, (j < n)%nat → ∃ d, d ∈ depls ∧ name d = Some (candidate prefix j)) as Htaken.
  { intros j Hj. apply Hbelow, list_elem_of_fmap in Hj as (d & Hd & Hin). by exists d. }
  assert (n ≤ length depls)%nat as Hle.
  { assert ((λ j, Some (candidate prefix j)) <$> seq 0 n ⊆+ name <$> depls) as Hsub.
    { apply NoDup_submseteq.
      - apply NoDup_fmap_2; [|apply NoDup_seq].
        intros i j [= Heq]. by apply candidate_inj in Heq.
      - intros x (j & -> & Hj%elem_of_seq)%list_elem_of_fmap. apply Hbelow. lia. }
    apply submseteq_length in Hsub. by rewrite !length_fmap, length_seq in Hsub. }
  split; [|split; [done|split; [done|]]].
  - intros d Hd Heq. apply Hfree. rewrite <- Heq. by apply list_elem_of_fmap_2.
  - intros ->. simpl in Hle. lia.
Qed.

(** *** [get_depl_arg] *)

Lemma string_app_empty_r (s : string) : s +:+ "" = s.
Proof.
  induction s as [|c s IH]; [done|].
  change (String c (s +:+ "") = String c s). by f_equal.
Qed.

Lemma string_app_empty_l (s : string) : "" +:+ s = s.
Proof. done. Qed.

Lemma replace_char_step (q c : ascii) (s : string) :
  Str.replace_go (String q EmptyString) "" 0 (String c s)
  = if decide (c = q) then Str.replace_go (String q EmptyString) "" 0 s
    else String c (Str.replace_go (String q EmptyString) "" 0 s).
Proof.
  simpl. destruct (decide (c = q)) as [->|Hne].
  - destruct (ascii_dec q q); [|done]. by destruct s.
  - destruct (ascii_dec q c); [by subst|done].
Qed.

Lemma replace_char_gone (q : ascii) (s : string) :
  Str.contains q (Str.replace s (String q EmptyString) "") = false.
Proof.
  unfold Str.replace. induction s as [|c s IH]; [done|].
  rewrite replace_char_step. destruct (decide (c = q)) as [|Hne]; [done|].
  simpl. by rewrite decide_False.
Qed.

Lemma replace_char_absent (q : ascii) (s : string) :
  Str.contains q s = false → Str.replace s (String q EmptyString) "" = s.
Proof.
  unfold Str.replace. induction s as [|c s IH]; [done|].
  rewrite replace_char_step. simpl.
  destruct (decide (c = q)); [done|]. intros Hs. by rewrite IH.
Qed.

Lemma replace_char_app (q : ascii) (a b : string) :
  Str.replace (a +:+ b) (String q EmptyString) ""
  = Str.replace a (String q EmptyString) "" +:+ Str.replace b (String q EmptyString) "".
Proof.
  unfold Str.replace. induction a as [|c a IH]; [done|].
  change (String c a +:+ b) with (String c (a +:+ b)).
  rewrite !replace_char_step. destruct (decide (c = q)); [done|].
  simpl. by rewrite IH.
Qed.

(** X2. [get_depl_arg] gives the empty string for a missing argument, its
    result never contains a double quote, and an argument stored between
    double quotes is read back unchanged exactly when the value itself has
    no double quote: a quote inside the value is dropped as well. *)
Theorem get_depl_arg_strips_every_quote (depl : Deployment) (key : string) :
  (args depl !! key = None → get_depl_arg depl key = "")
  ∧ Str.contains (ascii_of_nat 34) (get_depl_arg depl key) = false
  ∧ (∀ v, args depl !! key = Some (the_quote +:+ v +:+ the_quote) →
       (get_depl_arg depl key = v ↔ Str.contains (ascii_of_nat 34) v = false)).
Proof.
  unfold get_depl_arg, the_quote. split; [by intros ->|].
  split; [apply replace_char_gone|].
  intros v ->. simpl default. rewrite !replace_char_app.
  change (Str.replace (String (ascii_of_nat 34) "") (String (ascii_of_nat 34) "") "") with "".
  rewrite string_app_empty_l, string_app_empty_r. split.
  - intros Hv. rewrite <- Hv. apply replace_char_gone.
  - apply replace_char_absent.
Qed.

(** *** Sizer *)





(** *** The order of the pool *)

(** X4. Sorting the pool of a type keeps its deployments (it is a
    permutation), no deployment that is up comes after one that is not,
    and whenever some deployment of the pool is up the head of the sorted
    pool is up. *)
Theorem sort_existing_up_first (s : Store) (l : list nat) :
  sort_existing s l ≡ₚ l
  ∧ (∀ i j hi hj,
       sort_existing s l !! i = Some hi → sort_existing s l !! j = Some hj →
       (i < j)%nat → is_up s hj → is_up s hi)
  ∧ ((∃ h, h ∈ l ∧ is_up s h) →
     ∃ h rest, sort_existing s l = h :: rest ∧ is_up s h).
Proof.
  split; [apply sort_existing_perm|]. unfold sort_existing. split.
  - intros i j hi hj Hi Hj Hlt Hup.
    apply lookup_app_Some in Hj as [Hj|[Hlen Hj]].
    + rewrite lookup_app_l in Hi by (apply lookup_lt_Some in Hj; lia).
      apply list_elem_of_lookup_2, list_elem_of_filter in Hi. tauto.
    + apply list_elem_of_lookup_2, list_elem_of_filter in Hj. tauto.
  - intros (h & Hin & Hup).
    assert (h ∈ filter (is_up s) l) as Hf by (by apply list_elem_of_filter).
    destruct (filter (is_up s) l) as [|h0 rest] eqn:Hfl; [by apply elem_of_nil in Hf|].
    exists h0, (rest ++ filter (λ h, ¬ is_up s h) l)%list. split; [done|].
    assert (h0 ∈ filter (is_up s) l) as Hh0 by (rewrite Hfl; by left).
    apply list_elem_of_filter in Hh0. tauto.
Qed.

(** *** Invariants of the retention pass *)

Lemma foldM_invariant {A B} (P : A → Prop) (f : A → B → result A) (l : list B) :
  (∀ a b a', P a → b ∈ l → f a b = Ok a' → P a') →
  ∀ a a', P a → foldM f a l = Ok a' → P a'.
Proof.
  induction l as [|b l IH]; intros Hstep a a' Ha; simpl; [by intros [= <-]|].
  destruct (f a b) as [a1| |] eqn:Hf; simpl; [|done..].
  apply IH; [|by eapply Hstep; [|left|]].
  intros a2 b2 a3 Ha2 Hb2. apply Hstep; [done|by right].
Qed.

(** Every element of the list is visited, and what a visit establishes
    is kept by the later rounds. *)
Lemma foldM_each {A B} (Q : B → A → Prop) (f : A → B → result A) (l : list B) :
  (∀ a b a', f a b = Ok a' → Q b a') →
  (∀ a b b' a', Q b' a → f a b = Ok a' → Q b' a') →
  ∀ a a', foldM f a l = Ok a' → ∀ b, b ∈ l → Q b a'.
Proof.
  intros Hvisit Hkeep. induction l as [|b0 l IH]; intros a a'; simpl.
  - intros _ b Hb. by apply elem_of_nil in Hb.
  - destruct (f a b0) as [a1| |] eqn:Hf; simpl; [|done..].
    intros Hfold b [->|Hb]%elem_of_cons; [|by eapply IH].
    apply (foldM_invariant (Q b0) f l) with a1; [|by eapply Hvisit|done].
    intros a2 b2 a3 Ha2 _. by apply Hkeep.
Qed.

Lemma foldMi_invariant {A B} (P : A → Prop) (f : nat → A → B → result A) (l : list B) :
  (∀ i a b a', P a → b ∈ l → f i a b = Ok a' → P a') →
  ∀ i a a', P a → foldMi f i a l = Ok a' → P a'.
Proof.
  induction l as [|b l IH]; intros Hstep i a a' Ha; simpl; [by intros [= <-]|].
  destruct (f i a b) as [a1| |] eqn:Hf; simpl; [|done..].
  apply IH; [|by eapply Hstep; [|left|]].
  intros i2 a2 b2 a3 Ha2 Hb2. apply Hstep; [done|by right].
Qed.

Lemma foldMi_each {A B} (Q : B → A → Prop) (f : nat → A → B → result A) (l : list B) :
  (∀ i a b a', f i a b = Ok a' → Q b a') →
  (∀ i a b b' a', Q b' a → f i a b = Ok a' → Q b' a') →
  ∀ i a a', foldMi f i a l = Ok a' → ∀ b, b ∈ l → Q b a'.
Proof.
  intros Hvisit Hkeep. induction l as [|b0 l IH]; intros i a a'; simpl.
  - intros _ b Hb. by apply elem_of_nil in Hb.
  - destruct (f i a b0) as [a1| |] eqn:Hf; simpl; [|done..].
    intros Hfold b [->|Hb]%elem_of_cons; [|by eapply IH].
    apply (foldMi_invariant (Q b0) f l) with (S i) a1; [|by eapply Hvisit|done].
    intros i2 a2 b2 a3 Ha2 _. by eapply Hkeep.
Qed.

Section RetentionPass.

Variables (clock : Reading → Z) (config : Config) (status : Status) (s : Store).

Let step i := retention_step clock config i status s.

(** What one round does to the three sets. *)
Lemma retention_step_cases (i : nat) (st st' : Sets) (h : nat) :
  step i st h = Ok st' →
  (h ∈ kept st ∧ st' = st)
  ∨ ((h ∉ kept st)
     ∧ (st' = add_expired h st ∨ st' = add_in_use h st
        ∨ st' = add_unusable h (add_in_use h st))).
Proof.
  unfold step, retention_step.
  destruct (decide (h ∈ kept st)) as [Hin|Hnin]; [intros [= <-]; by left|].
  intros Hstep. right. split; [done|]. revert Hstep.
  destruct (decide (depl_state (s !!! h) ∉ [UP; STARTING])); [intros [= <-]; by left|].
  destruct (decide (get_depl_time_left _ (s !!! h) >= 30 * 60));
    [intros [= <-]; right; by left|].
  destruct (machine_stats status) as [stats|]; simpl; [|done].
  destruct (machines (s !!! h) !! "machine") as [m|]; [|done].
  destruct (has_current_jobs _).
  - destruct (decide _); intros [= <-]; right; [by right|by left].
  - destruct (decide (_ = 0)); simpl.
    + destruct (uptime status); simpl; [|done].
      destruct (decide _); intros [= <-]; [right; by left|by left].
    + destruct (decide _); intros [= <-]; [right; by left|by left].
Qed.

Lemma retention_step_grows (i : nat) (st st' : Sets) (h : nat) :
  step i st h = Ok st' →
  (h ∈ kept st' ∨ h ∈ expired st')
  ∧ (∀ h', h' ∈ kept st → h' ∈ kept st')
  ∧ (∀ h', h' ∈ expired st → h' ∈ expired st')
  ∧ (∀ h', h' ∈ kept st' → h' = h ∨ h' ∈ kept st)
  ∧ (∀ h', h' ∈ expired st' → h' = h ∨ h' ∈ expired st)
  ∧ (∀ h', h' ∈ unusable st' → h' ∈ unusable st ∨ (h' = h ∧ h ∈ kept st')).
Proof.
  intros [[Hin ->]|[Hnin [->|[->| ->]]]]%retention_step_cases.
  - split; [by left|]. repeat split; auto.
  - split; [right; apply elem_of_add_expired; by left|].
    split; [intros h' ?; by apply elem_of_add_expired|].
    split; [intros h' ?; apply elem_of_add_expired; by right|].
    split; [intros h' ?%elem_of_add_expired; by right|].
    split; [intros h' [->|?]%elem_of_add_expired; auto|].
    intros h' ?%elem_of_add_expired. by left.
  - split; [left; apply elem_of_add_in_use; by left|].
    split; [intros h' ?; apply elem_of_add_in_use; by right|].
    split; [intros h' ?; by apply elem_of_add_in_use|].
    split; [intros h' [->|?]%elem_of_add_in_use; auto|].
    split; [intros h' ?%elem_of_add_in_use; by right|].
    intros h' ?%elem_of_add_in_use. by left.
  - split; [left; apply elem_of_add_unusable, elem_of_add_in_use; by left|].
    split; [intros h' ?; apply elem_of_add_unusable, elem_of_add_in_use; by right|].
    split; [intros h' ?; by apply elem_of_add_unusable, elem_of_add_in_use|].
    split; [intros h' [->|?]%elem_of_add_unusable%elem_of_add_in_use; auto|].
    split; [intros h' ?%elem_of_add_unusable%elem_of_add_in_use; by right|].
    intros h' [->|?%elem_of_add_in_use]%elem_of_add_unusable; [|by left].
    right. split; [done|]. apply elem_of_add_unusable, elem_of_add_in_use. by left.
Qed.

(** A deployment that the inventory lists once is judged once. *)
Lemma retention_loop_disjoint (l : list nat) :
  ∀ (i : nat) (st st' : Sets),
    NoDup l →
    (∀ h, h ∈ expired st → h ∉ l) →
    (∀ h, h ∈ kept st → h ∉ expired st) →
    foldMi step i st l = Ok st' →
    ∀ h, h ∈ kept st' → h ∉ expired st'.
Proof.
  induction l as [|b l IH]; intros i st st' Hnd Hvis Hdisj; simpl;
    [by intros [= <-]|].
  apply NoDup_cons in Hnd as [Hb Hnd].
  destruct (step i st b) as [st1| |] eqn:Hstep; simpl; [|done..].
  apply IH; [done| |].
  - destruct (retention_step_grows _ _ _ _ Hstep) as (_ & _ & _ & _ & He & _).
    intros h [->|Hh]%He; [done|]. intros ?. apply (Hvis h Hh). by right.
  - destruct (retention_step_cases _ _ _ _ Hstep) as [[_ ->]|[Hnin [->|[->| ->]]]];
      [done| | |].
    + intros h Hk%elem_of_add_expired [->|He]%elem_of_add_expired;
        [done|by apply (Hdisj h)].
    + intros h [->|Hk]%elem_of_add_in_use He%elem_of_add_in_use;
        [apply (Hvis b He); by left|by apply (Hdisj h)].
    + intros h Hk%elem_of_add_unusable He%elem_of_add_unusable.
      apply elem_of_add_in_use in Hk as [->|Hk], He;
        [apply (Hvis b He); by left|by apply (Hdisj h)].
Qed.

End RetentionPass.

Lemma retention_pass_sets clock config status (s : Store) (depls : list nat)
    (in_use : gset nat) (sets : Sets) :
  retention clock config status s depls in_use = Ok sets →
  (∀ h, h ∈ in_use → h ∈ kept sets)
  ∧ (∀ h, h ∈ unusable sets → h ∈ kept sets)
  ∧ (NoDup depls → ∀ h, h ∈ kept sets → h ∉ expired sets)
  ∧ (∀ h, h ∈ depls → h ∈ kept sets ∨ h ∈ expired sets)
  ∧ (∀ h, h ∈ kept sets → h ∈ in_use ∨ h ∈ depls)
  ∧ (∀ h, h ∈ expired sets → h ∈ depls ∧ h ∉ in_use).
Proof.
  unfold retention. intros Hfold.
  set (st0 := {| kept := in_use; expired := ∅; unusable := ∅ |}) in *.
  set (f := λ i, retention_step clock config i status s) in *.
  assert ((∀ h, h ∈ unusable sets → h ∈ kept sets)
          ∧ (∀ h, h ∈ in_use → h ∈ kept sets)
          ∧ (∀ h, h ∈ kept sets → h ∈ in_use ∨ h ∈ depls)
          ∧ (∀ h, h ∈ expired sets → h ∈ depls ∧ h ∉ in_use))
    as (Hsub & Hin & Hk & He).
  { apply (foldMi_invariant
             (λ st, (∀ h, h ∈ unusable st → h ∈ kept st)
                    ∧ (∀ h, h ∈ in_use → h ∈ kept st)
                    ∧ (∀ h, h ∈ kept st → h ∈ in_use ∨ h ∈ depls)
                    ∧ (∀ h, h ∈ expired st → h ∈ depls ∧ h ∉ in_use))
             f depls) with 0%nat st0; [| |done].
    - intros i st h st' (Hsub & Hin & Hk & He) Hh Hstep.
      destruct (retention_step_grows _ _ _ _ _ _ _ _ Hstep)
        as (_ & Hk1 & _ & Hk2 & He2 & Hu2).
      split; [intros h' [?|[-> ?]]%Hu2; [by apply Hk1, Hsub|done]|].
      split; [intros h' ?; by apply Hk1, Hin|].
      split; [intros h' [->|?]%Hk2; [by right|by apply Hk]|].
      intros h' Hh'.
      destruct (retention_step_cases _ _ _ _ _ _ _ _ Hstep) as [[_ ->]|[Hnin _]];
        [by apply He|].
      apply He2 in Hh' as [->|?]; [|by apply He].
      split; [done|]. by intros Hi%Hin.
    - split; [|split; [done|split; [by left|]]]; simpl.
      + intros h Hh. by apply not_elem_of_empty in Hh.
      + intros h Hh. by apply not_elem_of_empty in Hh. }
  split; [done|]. split; [done|]. split; [|split; [|done]].
  - intros Hnd. apply (retention_loop_disjoint clock config status s depls 0%nat st0);
      [done| |by intros h _ ?%not_elem_of_empty|done].
    by intros h ?%not_elem_of_empty.
  - apply (foldMi_each (λ h st, h ∈ kept st ∨ h ∈ expired st) f depls) with 0%nat st0;
      [| |done].
    + intros i st h st' Hstep. by apply (retention_step_grows _ _ _ _ _ _ _ _ Hstep).
    + intros i st h h' st' Hq Hstep.
      destruct (retention_step_grows _ _ _ _ _ _ _ _ Hstep) as (_ & Hk1 & He1 & _).
      destruct Hq; [left; by apply Hk1|right; by apply He1].
Qed.



(** An inventory that lists a deployment twice: the dispatcher has been
    up for 1799 seconds, the clock moves on by a second between line 213
    and line 215 in the first round and stands still in the second, and
    the deployment ends both expired and kept. *)
Lemma listed_twice_kept_and_expired :
  let config := Scenario.config_for "x86_64-linux:" (Scenario.policy None None None None) in
  let s : Store := {[ 0%nat := Scenario.worker UP None ]} in
  let status := {| uptime := Some 1799; machineTypes := ∅;
                   machine_stats := Some Scenario.idle_stats |} in
  let clock r := match r with Idle 0 => Scenario.now + 1 | _ => Scenario.now end in
  ∃ sets,
    retention clock config status s [0%nat; 0%nat] ∅ = Ok sets
    ∧ 0%nat ∈ kept sets ∧ 0%nat ∈ expired sets.
Proof.
  eexists. split; [vm_compute; reflexivity|].
  split; apply elem_of_elements; vm_compute; apply list_elem_of_here.
Qed.

Lemma retention_step_paid clock config i status (s : Store) (st : Sets) (h : nat) :
  h ∉ kept st →
  depl_state (s !!! h) ∈ [UP; STARTING] →
  get_depl_time_left (clock (PaidTimeKept i)) (s !!! h) >= 30 * 60 →
  retention_step clock config i status s st h = Ok (add_in_use h st).
Proof.
  intros Hnin Hact Htl. unfold retention_step.
  rewrite decide_False by done.
  rewrite decide_False by (intros Hn; by apply Hn).
  by rewrite decide_True.
Qed.

Lemma retention_step_inactive clock config i status (s : Store) (st : Sets) (h : nat) :
  h ∉ kept st →
  depl_state (s !!! h) ∉ [UP; STARTING] →
  retention_step clock config i status s st h = Ok (add_expired h st).
Proof.
  intros Hnin Hact. unfold retention_step.
  rewrite decide_False by done. by rewrite decide_True.
Qed.

(** X6. A deployment of the inventory that is up or starting and has at
    least [30*60] seconds of paid time left, whenever the pass reads the
    clock for it, is kept by the retention pass whatever the dispatcher
    reports: it is not expired and it is not made unusable. *)
Theorem paid_time_is_retained clock config status (s : Store) (depls : list nat)
    (in_use : gset nat) (sets : Sets) (h : nat) :
  retention clock config status s depls in_use = Ok sets →
  h ∈ depls →
  depl_state (s !!! h) ∈ [UP; STARTING] →
  (∀ i, get_depl_time_left (clock (PaidTimeKept i)) (s !!! h) >= 30 * 60) →
  h ∈ kept sets ∧ (h ∉ expired sets) ∧ (h ∉ unusable sets).
Proof.
  intros Hret Hin Hact Htl. unfold retention in Hret.
  set (f := λ i, retention_step clock config i status s) in *.
  assert (h ∈ kept sets) as Hk.
  { apply (foldMi_each
             (λ b st, depl_state (s !!! b) ∈ [UP; STARTING] →
                      (∀ i, get_depl_time_left (clock (PaidTimeKept i)) (s !!! b)
                            >= 30 * 60) → b ∈ kept st)
             f depls) with (b := h) in Hret; auto.
    - intros i st b st' Hstep Hb1 Hb2.
      destruct (decide (b ∈ kept st)) as [Hbk|Hbk].
      + by apply (retention_step_grows _ _ _ _ _ _ _ _ Hstep).
      + unfold f in Hstep. rewrite retention_step_paid in Hstep by done.
        injection Hstep as <-. apply elem_of_add_in_use. by left.
    - intros i st b b' st' Hq Hstep Hb1 Hb2.
      apply (retention_step_grows _ _ _ _ _ _ _ _ Hstep). by apply Hq. }
  split; [done|].
  apply (foldMi_invariant (λ st, (h ∉ expired st) ∧ (h ∉ unusable st)) f depls)
    in Hret; [done| |].
  - intros i st b st' [He Hu] _ Hstep.
    destruct (retention_step_cases _ _ _ _ _ _ _ _ Hstep) as [[_ ->]|[Hbk Hcase]];
      [done|].
    destruct (decide (b = h)) as [->|Hne].
    + unfold f in Hstep. rewrite retention_step_paid in Hstep by done.
      injection Hstep as <-. split; by intros ?%elem_of_add_in_use.
    + destruct Hcase as [->|[->| ->]].
      * split; [intros [?|?]%elem_of_add_expired; done|by intros ?%elem_of_add_expired].
      * split; by intros ?%elem_of_add_in_use.
      * split; [by intros ?%elem_of_add_unusable%elem_of_add_in_use|].
        intros [->|?%elem_of_add_in_use]%elem_of_add_unusable; done.
  - simpl. split; apply not_elem_of_empty.
Qed.

Lemma paid_time_is_retained_witness :
  let config := Scenario.config_for "x86_64-linux:" (Scenario.policy None None None None) in
  let s : Store := {[ 0%nat := Scenario.worker UP (Some (Scenario.now + 2700)) ]} in
  let sets := add_in_use 0 Scenario.no_sets in
  0%nat ∈ kept sets ∧ (0%nat ∉ expired sets) ∧ (0%nat ∉ unusable sets).
Proof.
  intros config s sets.
  apply (paid_time_is_retained Scenario.clock config
           (Scenario.status_with None Scenario.busy_stats) s [0%nat] ∅ sets 0%nat).
  - vm_compute. reflexivity.
  - apply list_elem_of_here.
  - vm_compute. apply list_elem_of_here.
  - intros i. vm_compute. discriminate.
Defined.

(** X7. A deployment of the inventory that was not selected and whose
    state is neither up nor starting (stopped, missing, unreachable, ...)
    is expired by the retention pass, without a look at its paid time or
    at the dispatcher; it is not kept. *)
Theorem inactive_is_expired clock config status (s : Store) (depls : list nat)
    (in_use : gset nat) (sets : Sets) (h : nat) :
  retention clock config status s depls in_use = Ok sets →
  h ∈ depls → h ∉ in_use →
  depl_state (s !!! h) ∉ [UP; STARTING] →
  h ∈ expired sets ∧ (h ∉ kept sets) ∧ (h ∉ unusable sets).
Proof.
  intros Hret Hin Hsel Hact.
  destruct (retention_pass_sets _ _ _ _ _ _ _ Hret) as (_ & Hsub & _ & Hcov & _).
  assert (h ∉ kept sets) as Hk.
  { unfold retention in Hret.
    apply (foldMi_invariant (λ st, h ∉ kept st)
             (λ i, retention_step clock config i status s) depls) in Hret; [done| |done].
    intros i st b st' Hu _ Hstep.
    destruct (decide (b = h)) as [->|Hne].
    - rewrite retention_step_inactive in Hstep by done. injection Hstep as <-.
      by intros ?%elem_of_add_expired.
    - destruct (retention_step_grows _ _ _ _ _ _ _ _ Hstep) as (_ & _ & _ & Hk2 & _).
      intros [?|?]%Hk2; done. }
  split; [|split; [done|]].
  - by destruct (Hcov h Hin).
  - intros Hu. by apply Hk, Hsub.
Qed.

Lemma inactive_is_expired_witness :
  let config := Scenario.config_for "x86_64-linux:" (Scenario.policy None None None None) in
  let s : Store := {[ 0%nat := Scenario.worker STOPPED (Some (Scenario.now + 2700)) ]} in
  let sets := add_expired 0 Scenario.no_sets in
  0%nat ∈ expired sets ∧ (0%nat ∉ kept sets) ∧ (0%nat ∉ unusable sets).
Proof.
  intros config s sets.
  apply (inactive_is_expired Scenario.clock config
           (Scenario.status_with None Scenario.busy_stats) s [0%nat] ∅ sets 0%nat).
  - vm_compute. reflexivity.
  - apply list_elem_of_here.
  - apply not_elem_of_empty.
  - vm_compute. intros Hin. apply elem_of_cons in Hin as [Heq|Hin]; [discriminate|].
    apply elem_of_cons in Hin as [Heq|Hin]; [discriminate|]. by apply elem_of_nil in Hin.
Defined.



Lemma retention_step_without_machines clock config i status (s : Store) (st : Sets)
    (h : nat) :
  machine_stats status = None →
  match retention_step clock config i status s st h with
  | Ok st' => ∀ h', h' ∈ kept st' → h' = h ∨ h' ∈ kept st
  | Raise e => e = KeyError "machines"
  | OutOfFuel => False
  end.
Proof.
  intros Hnone.
  destruct (retention_step clock config i status s st h) as [st'|e|] eqn:Hstep.
  - intros h'. by apply (retention_step_grows _ _ _ _ _ _ _ _ Hstep).
  - revert Hstep. unfold retention_step. rewrite Hnone.
    repeat (destruct (decide _); [done|]). simpl. by intros [= <-].
  - revert Hstep. unfold retention_step. rewrite Hnone.
    by repeat (destruct (decide _); [done|]).
Qed.

(** X9. With a status document that has no ["machines"] key the retention
    pass raises [KeyError] as soon as the inventory holds a deployment
    that was not selected, is up or starting and has less than [30*60]
    seconds of paid time left whenever the pass reads the clock for it. *)
Theorem retention_needs_machines_key clock config status (s : Store) (depls : list nat)
    (in_use : gset nat) :
  machine_stats status = None →
  (∃ h, h ∈ depls ∧ (h ∉ in_use) ∧ depl_state (s !!! h) ∈ [UP; STARTING]
        ∧ ∀ i, get_depl_time_left (clock (PaidTimeKept i)) (s !!! h) < 30 * 60) →
  retention clock config status s depls in_use = Raise (KeyError "machines").
Proof.
  intros Hnone (h & Hin & Hsel & Hact & Htl). unfold retention.
  set (st0 := {| kept := in_use; expired := ∅; unusable := ∅ |}).
  assert (h ∉ kept st0) as Hk by done. clearbody st0. clear Hsel.
  generalize 0%nat. revert st0 Hk.
  induction depls as [|b l IH]; intros st Hk i; simpl.
  { by apply elem_of_nil in Hin. }
  pose proof (retention_step_without_machines clock config i status s st b Hnone) as Hb.
  destruct (decide (b = h)) as [->|Hne].
  - clear Hb IH. unfold retention_step.
    rewrite decide_False by done.
    rewrite decide_False by (intros Hn; by apply Hn).
    rewrite decide_False by (specialize (Htl i); lia). by rewrite Hnone.
  - apply elem_of_cons in Hin as [->|Hin]; [done|].
    destruct (retention_step clock config i status s st b) as [st'|e|]; simpl;
      [|by subst|done].
    apply IH; [done|]. intros [->|?]%Hb; done.
Qed.

Lemma retention_needs_machines_key_witness :
  let config := Scenario.config_for "x86_64-linux:" (Scenario.policy None None None None) in
  let s : Store := {[ 0%nat := Scenario.worker UP None ]} in
  let status := {| uptime := Some 900; machineTypes := ∅; machine_stats := None |} in
  retention Scenario.clock config status s [0%nat] ∅ = Raise (KeyError "machines").
Proof.
  intros config s status.
  apply (retention_needs_machines_key Scenario.clock config status s [0%nat] ∅ eq_refl).
  exists 0%nat. split; [apply list_elem_of_here|]. split; [apply not_elem_of_empty|].
  split; [vm_compute; apply list_elem_of_here|intros i; reflexivity].
Defined.

(** *** The deploy pass *)

Section DeployPass.

Variables (own_modules : string) (deploy : nat → Deployment → Deployment * bool).

Let extend := add_extra_nix_path ("hydra-provisioner=" +:+ own_modules).
(** What the engine is handed for the deployment [h] of the store [s], and
    what it answers. *)
Let answer (s : Store) (h : nat) := deploy h (alter extend h s !!! h).

Lemma answer_same_entry (s1 s2 : Store) (h : nat) :
  s1 !! h = s2 !! h → answer s1 h = answer s2 h.
Proof.
  intros Heq. unfold answer, lookup_total, map_lookup_total.
  by rewrite !lookup_alter_eq, Heq.
Qed.

Lemma deploy_fold (l : list nat) :
  ∀ (sc s' : Store) (dep dep' : gset nat),
    NoDup l →
    foldl (deploy_step own_modules deploy) (sc, dep) l = (s', dep') →
    (∀ h, h ∉ l → s' !! h = sc !! h)
    ∧ (∀ h, h ∈ l → s' !! h = Some (answer sc h).1)
    ∧ (∀ h, h ∈ dep' ↔
         h ∈ dep ∨ (h ∈ l ∧ (answer sc h).2 = true
                    ∧ is_Some (machines (answer sc h).1 !! "machine"))).
Proof.
  induction l as [|b l IH]; intros sc s' dep dep' Hnd; simpl.
  - intros [= <- <-]. split; [done|]. split; [by intros h ?%elem_of_nil|].
    intros h. split; [by left|]. by intros [?|[?%elem_of_nil _]].
  - apply NoDup_cons in Hnd as [Hb Hnd].
    fold extend. fold (answer sc b).
    destruct (answer sc b) as [d' ok] eqn:Hans.
    set (s2 := <[b := d']> (alter extend b sc)).
    assert (∀ h, h ≠ b → s2 !! h = sc !! h) as Hs2.
    { intros h Hne. unfold s2. by rewrite lookup_insert_ne, lookup_alter_ne. }
    assert (s2 !! b = Some d') as Hs2b by apply lookup_insert_eq.
    intros Hfold.
    destruct (ok && bool_decide (is_Some (machines d' !! "machine"))) eqn:Hok;
      apply (IH _ _ _ _ Hnd) in Hfold as (Hout & Hin & Hdep).
    + split; [|split].
      * intros h Hh. rewrite Hout by (intros ?; apply Hh; by right).
        apply Hs2. intros ->. apply Hh. by left.
      * intros h [->|Hh]%elem_of_cons; [by rewrite Hout, Hans|].
        rewrite (Hin h Hh). rewrite (answer_same_entry s2 sc h); [done|].
        apply Hs2. by intros ->.
      * intros h. rewrite Hdep, elem_of_union, elem_of_singleton, elem_of_cons.
        apply andb_true_iff in Hok as [-> Hm%bool_decide_eq_true_1].
        split.
        -- intros [[->|?]|(Hh & Ha)]; [right; rewrite Hans; by split; [left|]|by left|].
           right. rewrite (answer_same_entry s2 sc h) in Ha by (apply Hs2; by intros ->).
           split; [by right|done].
        -- intros [?|([->|Hh] & Ha)]; [left; by right|left; by left|].
           right. split; [done|].
           rewrite (answer_same_entry s2 sc h) by (apply Hs2; by intros ->). done.
    + split; [|split].
      * intros h Hh. rewrite Hout by (intros ?; apply Hh; by right).
        apply Hs2. intros ->. apply Hh. by left.
      * intros h [->|Hh]%elem_of_cons; [by rewrite Hout, Hans|].
        rewrite (Hin h Hh). rewrite (answer_same_entry s2 sc h); [done|].
        apply Hs2. by intros ->.
      * intros h. rewrite Hdep, elem_of_cons.
        split.
        -- intros [?|(Hh & Ha)]; [by left|].
           right. rewrite (answer_same_entry s2 sc h) in Ha by (apply Hs2; by intros ->).
           split; [by right|done].
        -- intros [?|([->|Hh] & Ha)]; [by left| |].
           { rewrite Hans in Ha. simpl in Ha. destruct Ha as [-> Hm].
             simpl in Hok. by rewrite bool_decide_eq_true_2 in Hok. }
           right. split; [done|].
           rewrite (answer_same_entry s2 sc h) by (apply Hs2; by intros ->). done.
Qed.

End DeployPass.

(** X10. The deploy pass leaves every deployment outside [in_use] as it
    was; a deployment of [in_use] is replaced by what the engine made of
    it (with the provisioner's module path appended first); and it is in
    [deployed] exactly when the deploy and the keep-alive returned and it
    has a machine.  So every deployed deployment is in [in_use] and has a
    machine in the store that the roster reads. *)
Theorem deploy_pass_spec (own_modules : string) (deploy : nat → Deployment → Deployment * bool)
    (s : Store) (in_use : gset nat) :
  let answer h :=
    deploy h (alter (add_extra_nix_path ("hydra-provisioner=" +:+ own_modules)) h s !!! h) in
  let s' := (deploy_pass own_modules deploy s in_use).1 in
  let deployed := (deploy_pass own_modules deploy s in_use).2 in
  (∀ h, h ∉ in_use → s' !! h = s !! h)
  ∧ (∀ h, h ∈ in_use → s' !! h = Some (answer h).1)
  ∧ (∀ h, h ∈ deployed ↔
       h ∈ in_use ∧ (answer h).2 = true ∧ is_Some (machines (answer h).1 !! "machine"))
  ∧ (∀ h, h ∈ deployed → h ∈ in_use ∧ is_Some (machines (s' !!! h) !! "machine")).
Proof.
  intros answer s' deployed. unfold deploy_pass in *.
  destruct (foldl _ _ _) as [s1 dep1] eqn:Hfold.
  apply deploy_fold in Hfold as (Hout & Hin & Hdep); [|apply NoDup_elements].
  subst s' deployed. simpl.
  assert (∀ h, h ∈ dep1 ↔
            h ∈ in_use ∧ (answer h).2 = true ∧ is_Some (machines (answer h).1 !! "machine"))
    as Hiff.
  { intros h. rewrite Hdep, elem_of_elements. split; [|by right].
    by intros [?%not_elem_of_empty|?]. }
  split; [intros h Hh; apply Hout; by rewrite elem_of_elements|].
  split; [intros h Hh; apply Hin; by rewrite elem_of_elements|].
  split; [done|].
  intros h (Hh & _ & Hm)%Hiff. split; [done|].
  unfold lookup_total, map_lookup_total. rewrite Hin by (by rewrite elem_of_elements). done.
Qed.

(** *** The retirement pass *)

Lemma retire_step_shape config now (s : Store) (h : nat) :
  retire_step config now s h = []
  ∨ retire_step config now s h = [StopMachines h]
  ∨ retire_step config now s h = [DestroyResources h; Delete h].
Proof.
  unfold retire_step.
  destruct (bool_decide _ && bool_decide _); [by left|].
  destruct (match systemTypes config !! _ with Some _ => _ | None => _ end).
  - destruct (decide _); [right; by left|by left].
  - right. by right.
Qed.

(** The calls on a deployment are those of its round. *)
Lemma elem_of_retirement_handle clock config (s : Store) (expired : gset nat) (h : nat)
    (c : call) :
  c = StopMachines h ∨ c = DestroyResources h ∨ c = Delete h →
  c ∈ retirement clock config s expired
  ↔ ∃ i, elements expired !! i = Some h
         ∧ c ∈ retire_step config (clock (PaidTimeRetired i)) s h.
Proof.
  intros Hc. rewrite elem_of_retirement. split; [|intros (i & ? & ?); by exists i, h].
  intros (i & h' & Hh' & Hin). exists i.
  assert (h' = h) as ->; [|done].
  apply retire_step_handle in Hin. destruct Hc as [->|[->| ->]], Hin as [?|[?|?]]; congruence.
Qed.

(** An expired deployment has one round. *)
Lemma retirement_round (expired : gset nat) (h : nat) :
  h ∈ expired ↔ ∃ i, elements expired !! i = Some h.
Proof. by rewrite <- elem_of_elements, list_elem_of_lookup. Qed.

Lemma retirement_round_unique (expired : gset nat) (h : nat) (i j : nat) :
  elements expired !! i = Some h → elements expired !! j = Some h → i = j.
Proof. apply NoDup_lookup, NoDup_elements. Qed.

(** X11. The retirement pass calls the engine only for expired
    deployments; a deployment is deleted exactly when its resources are
    destroyed, and a deployment that is stopped is not destroyed. *)
Theorem retirement_only_touches_expired clock config (s : Store) (expired : gset nat) :
  (∀ h, h ∉ expired →
     (StopMachines h ∉ retirement clock config s expired)
     ∧ (DestroyResources h ∉ retirement clock config s expired)
     ∧ (Delete h ∉ retirement clock config s expired))
  ∧ (∀ h, DestroyResources h ∈ retirement clock config s expired
          ↔ Delete h ∈ retirement clock config s expired)
  ∧ (∀ h, StopMachines h ∈ retirement clock config s expired →
          DestroyResources h ∉ retirement clock config s expired).
Proof.
  split; [|split].
  - intros h Hh.
    repeat split; rewrite (elem_of_retirement_handle _ _ _ _ h) by auto;
      intros (i & Hi & _); apply Hh, retirement_round; by exists i.
  - intros h. rewrite !(elem_of_retirement_handle _ _ _ _ h) by auto.
    split; intros (i & Hi & Hc); exists i; (split; [done|]);
      destruct (retire_step_shape config (clock (PaidTimeRetired i)) s h)
        as [Hs|[Hs|Hs]]; rewrite Hs in Hc |- *.
    + by apply elem_of_nil in Hc.
    + by apply list_elem_of_singleton in Hc.
    + right. by left.
    + by apply elem_of_nil in Hc.
    + by apply list_elem_of_singleton in Hc.
    + by left.
  - intros h. rewrite !(elem_of_retirement_handle _ _ _ _ h) by auto.
    intros (i & Hi & Hc) (j & Hj & Hd).
    rewrite (retirement_round_unique _ _ _ _ Hj Hi) in Hd.
    destruct (retire_step_shape config (clock (PaidTimeRetired i)) s h)
      as [Hs|[Hs|Hs]]; rewrite Hs in Hc, Hd.
    + by apply elem_of_nil in Hc.
    + by apply list_elem_of_singleton in Hd.
    + apply elem_of_cons in Hc as [[=]|[=]%list_elem_of_singleton].
Qed.

(** X12. What happens to an expired deployment that is not protected by
    paid time at the reading of the clock taken for it: under a policy
    with [stopOnIdle] it is never destroyed and is stopped unless it is
    stopped already; otherwise, and also when its type has no policy entry
    any more, its resources are destroyed and it is deleted. *)
Theorem stop_or_destroy clock config (s : Store) (expired : gset nat) (h : nat) :
  let stop_on_idle :=
    match systemTypes config !! get_depl_arg (s !!! h) "type" with
    | Some tc => default false (stopOnIdle tc)
    | None => false
    end in
  h ∈ expired →
  (∀ i, elements expired !! i = Some h →
        ¬ (depl_state (s !!! h) ∈ [UP; STARTING]
           ∧ get_depl_time_left (clock (PaidTimeRetired i)) (s !!! h) >= 10 * 60)) →
  if stop_on_idle then
    (DestroyResources h ∉ retirement clock config s expired)
    ∧ (Delete h ∉ retirement clock config s expired)
    ∧ (StopMachines h ∈ retirement clock config s expired ↔ depl_state (s !!! h) ≠ STOPPED)
  else
    DestroyResources h ∈ retirement clock config s expired
    ∧ Delete h ∈ retirement clock config s expired
    ∧ (StopMachines h ∉ retirement clock config s expired).
Proof.
  intros stop_on_idle Hh Hfree.
  assert (∀ i, elements expired !! i = Some h →
            retire_step config (clock (PaidTimeRetired i)) s h
            = if stop_on_idle
              then if decide (depl_state (s !!! h) ≠ STOPPED) then [StopMachines h] else []
              else [DestroyResources h; Delete h]) as Hstep.
  { intros i Hi. unfold retire_step. fold stop_on_idle.
    destruct (bool_decide _ && bool_decide _) eqn:Hp; [|done].
    apply andb_true_iff in Hp as [?%bool_decide_eq_true_1 ?%bool_decide_eq_true_1].
    by destruct (Hfree i Hi). }
  apply retirement_round in Hh as [i0 Hi0].
  clearbody stop_on_idle.
  destruct stop_on_idle; rewrite !(elem_of_retirement_handle _ _ _ _ h) by auto.
  - destruct (decide (depl_state (s !!! h) ≠ STOPPED)) as [Hs|Hs].
    + split; [intros (i & Hi & Hc); rewrite (Hstep i Hi) in Hc;
                by apply list_elem_of_singleton in Hc|].
      split; [intros (i & Hi & Hc); rewrite (Hstep i Hi) in Hc;
                by apply list_elem_of_singleton in Hc|].
      split; [done|]. intros _. exists i0. split; [done|]. rewrite (Hstep i0 Hi0). by left.
    + split; [intros (i & Hi & Hc); rewrite (Hstep i Hi) in Hc; by apply elem_of_nil in Hc|].
      split; [intros (i & Hi & Hc); rewrite (Hstep i Hi) in Hc; by apply elem_of_nil in Hc|].
      split; [|done]. intros (i & Hi & Hc). rewrite (Hstep i Hi) in Hc.
      by apply elem_of_nil in Hc.
  - split; [exists i0; split; [done|]; rewrite (Hstep i0 Hi0); by left|].
    split; [exists i0; split; [done|]; rewrite (Hstep i0 Hi0); right; by left|].
    intros (i & Hi & Hc). rewrite (Hstep i Hi) in Hc.
    apply elem_of_cons in Hc as [[=]|[=]%list_elem_of_singleton].
Qed.

Lemma stop_or_destroy_witness :
  let config := Scenario.config_for "x86_64-linux:"
                  (Scenario.policy None None None (Some true)) in
  let s : Store := {[ 0%nat := Scenario.worker UP None ]} in
  (DestroyResources 0 ∉ retirement Scenario.clock config s {[ 0%nat ]})
  ∧ (Delete 0 ∉ retirement Scenario.clock config s {[ 0%nat ]})
  ∧ (StopMachines 0 ∈ retirement Scenario.clock config s {[ 0%nat ]}
     ↔ depl_state (s !!! 0%nat) ≠ STOPPED).
Proof.
  intros config s.
  apply (stop_or_destroy Scenario.clock config s {[ 0%nat ]} 0%nat).
  - by apply elem_of_singleton.
  - intros i _ [_ Htl]. vm_compute in Htl. by apply Htl.
Defined.

(** *** The type name in the roster *)

(** X13. How the type name of a deployment reaches its roster line: the
    name (with a colon appended when it has none) is cut at its first
    colon into a systems text and a features text; the systems column is
    the systems text, followed by [,i686-linux] exactly when the text
    lists [x86_64-linux] and not [i686-linux]; the features are the
    features text, or no feature at all when that text is empty; a name
    without colon is all systems. *)
Theorem roster_type_columns (type_name : string) :
  let named := if Str.contains colon type_name then type_name else type_name +:+ ":" in
  let systems := (Str.split1 colon named).1 in
  let features := (Str.split1 colon named).2 in
  let appended :=
    bool_decide ("x86_64-linux" ∈ Str.split comma systems)
    && bool_decide ("i686-linux" ∉ Str.split comma systems) in
  named = systems +:+ ":" +:+ features
  ∧ Str.contains colon systems = false
  ∧ Str.join "," (systems_and_features type_name).1
    = systems +:+ (if appended then ",i686-linux" else "")
  ∧ (features = "" → (systems_and_features type_name).2 = [])
  ∧ (features ≠ "" → Str.join "," (systems_and_features type_name).2 = features)
  ∧ (Str.contains colon type_name = false → systems = type_name ∧ features = "").
Proof.
  intros named systems features appended.
  assert (Str.contains colon named = true) as Hc.
  { unfold named. destruct (Str.contains colon type_name) eqn:Ht; [done|].
    apply contains_app_char. }
  destruct (split1_spec colon named Hc) as [Hnamed Hsys].
  fold systems features in Hnamed, Hsys.
  split; [done|]. split; [done|].
  assert (systems_and_features type_name
          = (if appended then (Str.split comma systems ++ ["i686-linux"])%list
             else Str.split comma systems,
             if decide (features = "") then [] else Str.split comma features)) as ->.
  { unfold systems_and_features. fold named.
    unfold appended, systems, features. by destruct (Str.split1 colon named). }
  simpl. split; [|split; [|split]].
  - destruct appended.
    + rewrite join_snoc by apply split_nonempty. by rewrite (join_split comma).
    + by rewrite (join_split comma), string_app_empty_r.
  - intros ->. by rewrite decide_True.
  - intros Hf. rewrite decide_False by done. apply (join_split comma).
  - intros Ht. unfold systems, features, named. rewrite Ht.
    by rewrite split1_at_end.
Qed.

(** *** What the selection loop leaves alone *)

Lemma selection_frame_refl (st : Sel) : selection_frame st st.
Proof.
  repeat split; auto.
  replace (in_use st ∖ in_use st) with (∅ : gset nat) by set_solver.
  rewrite size_empty. lia.
Qed.

Lemma selection_frame_trans (st st1 st' : Sel) :
  selection_frame st st1 → selection_frame st1 st' → selection_frame st st'.
Proof.
  intros (Hd & Hi & Hm & Hs & Hn) (Hd' & Hi' & Hm' & Hs' & Hn').
  split; [auto|]. split; [|split; [auto|split]].
  - intros h [[?|?]%Hi|?]%Hi'; auto.
  - intros h Hh. rewrite Hs' by done. apply Hs. intros ?. apply Hh. auto.
  - assert (size (in_use st' ∖ in_use st)
            ≤ size (in_use st' ∖ in_use st1) + size (in_use st1 ∖ in_use st))%nat.
    { rewrite <- size_union by set_solver. apply subseteq_size.
      intros h [Hh' Hh]%elem_of_difference. apply elem_of_union.
      destruct (decide (h ∈ in_use st1)); [right|left]; by apply elem_of_difference. }
    lia.
Qed.

Lemma selection_frame_accept (abspath abs_nix_path : string → string)
    (type_config : TypeConfig) (h : nat) (st : Sel) :
  h ∈ depls st →
  selection_frame st (accept abspath abs_nix_path type_config h st).1.
Proof.
  intros Hh. unfold accept. simpl. split; [done|]. split; [|split; [|split]].
  - intros h' [->%elem_of_singleton|?]%elem_of_union; auto.
  - intros h' ?. apply elem_of_union. by right.
  - intros h' Hh'. apply lookup_alter_ne. by intros ->.
  - simpl. assert (size (({[h]} ∪ in_use st) ∖ in_use st) ≤ 1)%nat; [|lia].
    etrans; [apply (subseteq_size _ ({[h]} : gset nat)); set_solver|].
    by rewrite size_singleton.
Qed.

Section SelectionFrame.

Variables (config : Config) (check : nat → Machine → reply Machine).
Variables (nix_string abspath abs_nix_path : string → string).
Variables (type_name : string) (type_config : TypeConfig).

Lemma select_step_frame (st st' : Sel) (fl : flow) :
  (∀ h, h ∈ existing st → h ∈ depls st) →
  select_step config check nix_string abspath abs_nix_path type_name type_config st
    = Ok (st', fl) →
  selection_frame st st'
  ∧ (∀ h, h ∈ existing st' → h ∈ depls st')
  ∧ have st' ≤ have st + 1.
Proof.
  intros Hex. unfold select_step.
  destruct (existing st) as [|h rest] eqn:Hexisting.
  - unfold create.
    destruct (get_new_deployment_name _ _) as [name| |]; simpl; [|done..].
    set (h := fresh (dom (store st))).
    match goal with
    | |- context [accept _ _ _ h ?st1] =>
        pose proof (selection_frame_accept abspath abs_nix_path type_config h st1) as Hacc;
        pose proof (accept_spec abspath abs_nix_path type_config h st1) as Hsp;
        destruct (accept abspath abs_nix_path type_config h st1) as [st2 fl2]
    end.
    simpl in Hacc, Hsp. destruct Hsp as (Hs & Hd & Ha & He & Hc & Hh & Hi & _).
    intros [= <- <-].
    destruct Hacc as (_ & _ & _ & _ & Hn); [apply elem_of_app; right; by left|].
    simpl in Hn. unfold selection_frame. rewrite Hd, He, Hh, Hi, Hs, Hexisting.
    split; [|split; [by intros ? ?%elem_of_nil|lia]].
    split; [intros h' ?; apply elem_of_app; by left|].
    split; [intros h' [->%elem_of_singleton|?]%elem_of_union;
              [right; apply elem_of_app; right; by left|by left]|].
    split; [intros h' ?; apply elem_of_union; by right|].
    split; [|rewrite Hi, Hh in Hn; lia].
    intros h' Hh'. rewrite lookup_alter_ne, lookup_insert_ne; [done| |];
      intros ->; apply Hh', elem_of_app; right; by left.
  - assert (h ∈ depls st) as Hh by (apply Hex; by left).
    assert (∀ h', h' ∈ rest → h' ∈ depls st) as Hrest by (intros; apply Hex; by right).
    destruct (decide (depl_state (store st !!! h) = UP)).
    + destruct (machines (store st !!! h) !! "machine") as [m|];
        cbn [subscript mbind result_bind]; [|done].
      destruct (check h m) as [m'|err]; cbn [of_reply mbind result_bind]; [|done].
      set (st1 := with_store (alter (alter_machine (λ _, m')) h (store st)) st).
      assert (selection_frame st st1) as Hf1.
      { split; [done|]. split; [by left|]. split; [done|]. split.
        - intros h' Hh'. apply lookup_alter_ne. by intros ->.
        - simpl. replace (in_use st ∖ in_use st) with (∅ : gset nat) by set_solver.
          rewrite size_empty. lia. }
      destruct (decide (depl_state (store st1 !!! h) ≠ UP)).
      * intros [= <- <-]. simpl. split; [|split; [|lia]].
        -- destruct Hf1 as (? & ? & ? & ? & ?). repeat split; auto.
        -- intros h' Hh'. apply Hex.
           unfold st1 in Hh'. simpl in Hh'. rewrite Hexisting in Hh'.
           by rewrite sort_existing_perm in Hh'.
      * pose proof (selection_frame_accept abspath abs_nix_path type_config h
                      (with_existing rest st1) Hh) as Hacc.
        pose proof (accept_spec abspath abs_nix_path type_config h
                      (with_existing rest st1)) as Hsp.
        destruct (accept _ _ _ h _) as [st2 fl2]. simpl in Hacc, Hsp.
        destruct Hsp as (_ & Hd & _ & He & _ & Hhv & _).
        intros [= <- <-].
        split; [|split; [by rewrite He, Hd|lia]].
        apply (selection_frame_trans st st1); [done|].
        destruct Hacc as (? & ? & ? & ? & ?). repeat split; auto.
    + destruct (decide (depl_state (store st !!! h) = MISSING)).
      * intros [= <- <-]. simpl. split; [|split; [done|lia]].
        pose proof (selection_frame_refl st) as (? & ? & ? & ? & ?). repeat split; auto.
      * pose proof (selection_frame_accept abspath abs_nix_path type_config h
                      (with_existing rest st) Hh) as Hacc.
        pose proof (accept_spec abspath abs_nix_path type_config h
                      (with_existing rest st)) as Hsp.
        destruct (accept _ _ _ h _) as [st2 fl2]. simpl in Hacc, Hsp.
        destruct Hsp as (_ & Hd & _ & He & _ & Hhv & _).
        intros [= <- <-].
        split; [|split; [by rewrite He, Hd|lia]].
        destruct Hacc as (? & ? & ? & ? & ?). repeat split; auto.
Qed.

Lemma select_loop_frame (allowed : Z) :
  ∀ (fuel : nat) (st st' : Sel),
    (∀ h, h ∈ existing st → h ∈ depls st) →
    select_loop config check nix_string abspath abs_nix_path fuel type_name type_config
      allowed st = Ok st' →
    selection_frame st st' ∧ have st' ≤ Z.max allowed (have st).
Proof.
  induction fuel as [|fuel IH]; intros st st' Hex; simpl.
  - destruct (decide (have st < allowed)); [done|]. intros [= <-].
    split; [apply selection_frame_refl|lia].
  - destruct (decide (have st < allowed)) as [Hlt|Hge];
      [|intros [= <-]; split; [apply selection_frame_refl|lia]].
    destruct (select_step _ _ _ _ _ _ _ st) as [[st1 fl]| |] eqn:Hstep; simpl; [|done..].
    destruct (select_step_frame _ _ _ Hex Hstep) as (Hf & Hex1 & Hhv).
    destruct fl.
    + intros Hloop. destruct (IH _ _ Hex1 Hloop) as [Hf' Hhv'].
      split; [by eapply selection_frame_trans|lia].
    + intros [= <-]. split; [done|lia].
Qed.

End SelectionFrame.

(** The loop of one machine type, from the state before it: what
    [selection_frame] says, with [have] counted from [0]. *)
Lemma provision_type_frame config check nix_string abspath abs_nix_path mt st type_name st' :
  provision_type config check nix_string abspath abs_nix_path mt st type_name = Ok st' →
  (∀ h, h ∈ depls st → h ∈ depls st')
  ∧ (∀ h, h ∈ in_use st' → h ∈ in_use st ∨ h ∈ depls st')
  ∧ (∀ h, h ∈ in_use st → h ∈ in_use st')
  ∧ (∀ h, h ∉ depls st' → store st' !! h = store st !! h)
  ∧ (∀ tc wanted allowed,
       systemTypes config !! type_name = Some tc →
       size_type mt type_name tc = Ok (wanted, allowed) →
       Z.of_nat (size (in_use st' ∖ in_use st)) ≤ have st'
       ∧ have st' ≤ Z.max allowed 0).
Proof.
  unfold provision_type.
  destruct (systemTypes config !! type_name) as [tc|] eqn:Htc.
  - destruct (size_type mt type_name tc) as [[w a]| |] eqn:Hsz; simpl; [|done..].
    intros Hloop. apply select_loop_frame in Hloop as [(Hd & Hi & Hm & Hs & Hn) Hhv].
    + simpl in *. split; [done|]. split; [done|]. split; [done|]. split; [done|].
      intros tc' w' a' [= <-] Hsz'. rewrite Hsz in Hsz'. injection Hsz' as <- <-. lia.
    + simpl. intros h. rewrite sort_existing_perm.
      by intros [_ ?]%list_elem_of_filter.
  - intros [= <-]. split; [done|]. split; [by left|]. split; [done|]. split; [done|].
    by intros tc w a [=].
Qed.

(** The handles of the inventory after the loop of one type: those it had,
    and at most one that the store did not hold. *)
Lemma provision_type_inventory config check nix_string abspath abs_nix_path mt st
    type_name st' :
  provision_type config check nix_string abspath abs_nix_path mt st type_name = Ok st' →
  dom (store st) ⊆ dom (store st')
  ∧ ∀ h, h ∈ depls st' → h ∈ depls st ∨ h ∉ dom (store st).
Proof.
  intros Hp.
  pose proof (provision_type_spec config check nix_string abspath abs_nix_path mt st
                type_name) as Hspec.
  destruct (systemTypes config !! type_name) as [tc|].
  - destruct (size_type mt type_name tc) as [[w a]|e|]; [| |done].
    + rewrite Hp in Hspec.
      destruct Hspec as [((Hdom & Hd & _) & _)|((h & n & Hfresh & Hdom & Hd & _) & _)];
        rewrite Hdom, Hd.
      * split; [done|]. by left.
      * split; [apply union_subseteq_r|].
        intros h' [?| ->%list_elem_of_singleton]%elem_of_app; [by left|by right].
    + destruct Hspec as [_ Heq]. congruence.
  - rewrite Hp in Hspec. injection Hspec as ->. split; [done|]. by left.
Qed.

(** The loop over all the types, from the state [st0]: every deployment in
    use is in the inventory, the inventory holds the handles it had and
    handles that the store did not hold, and what is outside the inventory
    is as it was. *)
Lemma provision_outside config check nix_string abspath abs_nix_path mt (st0 st : Sel) :
  (∀ h, h ∈ in_use st0 → h ∈ depls st0) →
  provision config check nix_string abspath abs_nix_path mt st0 = Ok st →
  dom (store st0) ⊆ dom (store st)
  ∧ (∀ h, h ∈ depls st → h ∈ depls st0 ∨ h ∉ dom (store st0))
  ∧ (∀ h, h ∈ in_use st → h ∈ depls st)
  ∧ (∀ h, h ∉ depls st → store st !! h = store st0 !! h).
Proof.
  intros Hin0. unfold provision.
  apply (foldM_invariant
           (λ st, dom (store st0) ⊆ dom (store st)
                  ∧ (∀ h, h ∈ depls st → h ∈ depls st0 ∨ h ∉ dom (store st0))
                  ∧ (∀ h, h ∈ in_use st → h ∈ depls st)
                  ∧ (∀ h, h ∉ depls st → store st !! h = store st0 !! h))).
  - intros a t a' (Hdom & Hd & Hi & Hs) _ Hstep.
    destruct (provision_type_frame _ _ _ _ _ _ _ _ _ Hstep) as (Fd & Fi & _ & Fs & _).
    destruct (provision_type_inventory _ _ _ _ _ _ _ _ _ Hstep) as (Idom & Id).
    split; [by etrans|]. split; [|split].
    + intros h [?|Hh]%Id; [by apply Hd|]. right. intros ?. apply Hh. by apply Hdom.
    + intros h [?%Hi|?]%Fi; [by apply Fd|done].
    + intros h Hh. rewrite Fs by done. apply Hs. intros ?. apply Hh. by apply Fd.
  - split; [done|]. split; [by left|]. split; [done|]. done.
Qed.

(** X14. The loop of one machine type that has a policy entry puts in use
    at most [allowed] deployments, hence at most [maxMachines]; it takes
    nothing out of [in_use], every deployment that it puts in use is in
    the inventory of the controller's tag, and it writes to no deployment
    outside that inventory. *)
Theorem selection_within_allowance config check nix_string abspath abs_nix_path mt
    (st st' : Sel) (type_name : string) (tc : TypeConfig) (wanted allowed : Z) :
  systemTypes config !! type_name = Some tc →
  size_type mt type_name tc = Ok (wanted, allowed) →
  provision_type config check nix_string abspath abs_nix_path mt st type_name = Ok st' →
  Z.of_nat (size (in_use st' ∖ in_use st)) ≤ Z.max allowed 0
  ∧ Z.max allowed 0 ≤ Z.max (default 1 (maxMachines tc)) 0
  ∧ in_use st ⊆ in_use st'
  ∧ (∀ h, h ∈ in_use st' → h ∈ in_use st ∨ h ∈ depls st')
  ∧ (∀ h, h ∉ depls st' → store st' !! h = store st !! h).
Proof.
  intros Htc Hsz Hp.
  destruct (provision_type_frame _ _ _ _ _ _ _ _ _ Hp) as (_ & Fi & Fm & Fs & Fn).
  destruct (Fn _ _ _ Htc Hsz) as [Hn Hhv].
  split; [lia|]. split; [|done].
  unfold size_type, sizer in Hsz.
  destruct (float_ceil_div _ _) as [w| |]; simpl in Hsz; [|done..].
  injection Hsz as _ <-. lia.
Qed.

Lemma selection_within_allowance_witness :
  let config := Scenario.config_for "x86_64-linux:" (Scenario.policy None (Some 1) None None) in
  let mt : gmap string TypeStatus :=
    {[ "x86_64-linux:" := {| runnable := 25; lastActive := None |} ]} in
  let worker n := Scenario.deployment n "hydra-provisioned" "x86_64-linux:"
                    (Some (Scenario.machine UP None)) in
  let st := {| store := {[ 0%nat := worker "hydra-provisioned-0";
                           1%nat := worker "hydra-provisioned-1" ]};
               depls := [0%nat; 1%nat]; all_depls := [0%nat; 1%nat]; in_use := ∅;
               existing := []; have := 0; created := 0 |} in
  ∃ st',
    provision_type config Scenario.check Scenario.quoted id id mt st "x86_64-linux:" = Ok st'
    ∧ elements (in_use st') = [0%nat]
    ∧ Z.of_nat (size (in_use st' ∖ in_use st)) ≤ Z.max 1 0.
Proof.
  intros config mt worker st. eexists. split; [vm_compute; reflexivity|].
  split; [reflexivity|].
  refine (proj1 (selection_within_allowance config Scenario.check Scenario.quoted id id mt
                   st _ "x86_64-linux:" (Scenario.policy None (Some 1) None None) 3 1
                   eq_refl eq_refl _)).
  vm_compute. reflexivity.
Defined.

(** *** The deployments that the run leaves alone *)

Lemma bind_Ok {A B} (r : result A) (f : A → result B) (b : B) :
  r ≫= f = Ok b → ∃ a, r = Ok a ∧ f a = Ok b.
Proof. destruct r as [a| |]; simpl; [by exists a|done..]. Qed.

(** X15. A run that returns leaves alone every deployment that the store
    held at the start and that is not in the inventory of the controller's
    tag: its entry in the store is what it was, it is in none of the sets
    of the run, it is not deployed, and no engine call stops, destroys or
    deletes it. *)
Theorem other_deployments_left_alone clock config check nix_string abspath abs_nix_path
    own_modules deploy b64encode hand_off (s : Store) (all_depls : list nat)
    (o : StatusOutput) (out : Outcome) (h : nat) :
  main clock config check nix_string abspath abs_nix_path own_modules deploy b64encode
    hand_off s all_depls o = Ok out →
  h ∈ dom s →
  h ∉ all_depls ∨ get_depl_arg (s !!! h) "tag" ≠ tag config →
  final_store out !! h = s !! h
  ∧ (h ∉ final_depls out)
  ∧ (h ∉ kept (final_sets out))
  ∧ (h ∉ expired (final_sets out))
  ∧ (h ∉ unusable (final_sets out))
  ∧ (h ∉ deployed_set out)
  ∧ (StopMachines h ∉ calls out)
  ∧ (DestroyResources h ∉ calls out)
  ∧ (Delete h ∉ calls out).
Proof.
  intros Hmain Hdom Hother. unfold main in Hmain. cbv zeta in Hmain.
  apply bind_Ok in Hmain as (doc & _ & Hmain).
  apply bind_Ok in Hmain as (entries & _ & Hmain).
  apply bind_Ok in Hmain as (d & _ & Hmain).
  apply bind_Ok in Hmain as (sel & Hprov & Hmain).
  apply bind_Ok in Hmain as (sets & Hret & Hmain).
  destruct (deploy_pass _ _ _ _) as [s' deployed] eqn:Hdep.
  apply bind_Ok in Hmain as (machines_list & _ & Hmain).
  apply bind_Ok in Hmain as (u & _ & Hmain).
  injection Hmain as <-. simpl.
  apply provision_outside in Hprov as (_ & Hd & Hi & Hs);
    [|by intros ? ?%not_elem_of_empty].
  simpl in Hd, Hs.
  assert (h ∉ depls sel) as Hnd.
  { intros [[Htag Hall]%list_elem_of_filter|?]%Hd; [|done].
    by destruct Hother. }
  apply retention_pass_sets in Hret as (_ & Hu & _ & _ & Hk & He).
  assert (h ∉ kept sets) as Hnk by (intros [?%Hi|?]%Hk; done).
  assert (h ∉ expired sets) as Hne by (by intros [? _]%He).
  unfold deploy_pass in Hdep.
  apply deploy_fold in Hdep as (Hout & _ & Hdeployed); [|apply NoDup_elements].
  split; [rewrite Hout by (by rewrite elem_of_elements); by apply Hs|].
  split; [done|]. split; [done|]. split; [done|].
  split; [by intros ?%Hu|].
  split.
  { intros [?%not_elem_of_empty|[?%elem_of_elements _]]%Hdeployed; done. }
  repeat split; rewrite (elem_of_retirement_handle _ _ _ _ h) by auto;
    intros (i & Hround & _); apply Hne, retirement_round; by exists i.
Qed.

Lemma other_deployments_left_alone_witness :
  let foreign := Scenario.deployment "hydra-provisioned-0" "staging" "x86_64-linux:big" None in
  let config := Scenario.config_for "x86_64-linux:big"
                  (Scenario.policy (Some 1) (Some 1) None None) in
  ∃ out,
    Scenario.run config {[ 0%nat := foreign ]} [0%nat]
      (Parsed (JObject (Scenario.status_doc [] ∅))) = Ok out
    ∧ final_depls out = [1%nat]
    ∧ final_store out !! 0%nat = Some foreign
    ∧ (0%nat ∉ deployed_set out).
Proof.
  intros foreign config. eexists. split; [vm_compute; reflexivity|].
  split; [reflexivity|].
  match goal with
  | |- final_store ?out !! _ = _ ∧ _ =>
      pose proof (other_deployments_left_alone Scenario.clock config Scenario.check
                    Scenario.quoted id id "/share/nix/hydra-provisioner" Scenario.deploy
                    Scenario.b64encode Scenario.hand_off {[ 0%nat := foreign ]} [0%nat]
                    (Parsed (JObject (Scenario.status_doc [] ∅))) out 0%nat) as Hleft
  end.
  destruct Hleft as (Hs & _ & _ & _ & _ & Hdep & _).
  - vm_compute. reflexivity.
  - vm_compute. reflexivity.
  - right. vm_compute. discriminate.
  - split; [exact Hs|exact Hdep].
Defined.

(** *** A run while the dispatcher is down *)





(** *** What a run keeps is not retired *)





(** *** The deployments that a run creates *)



(** *** The recipe of the selected deployments *)

Lemma accept_configured (abspath abs_nix_path : string → string) (tc : TypeConfig)
    (h : nat) (st : Sel) :
  h ∈ dom (store st) →
  configured abspath abs_nix_path tc (store (accept abspath abs_nix_path tc h st).1 !!! h)
  ∧ ∀ h', h' ≠ h →
      store (accept abspath abs_nix_path tc h st).1 !!! h' = store st !!! h'.
Proof.
  intros [d Hd]%elem_of_dom. unfold accept. simpl. split.
  - rewrite lookup_total_alter_eq, Hd. by split.
  - intros h' Hne. by apply lookup_total_alter_ne.
Qed.

Lemma recipe_inv_accept (abspath abs_nix_path : string → string) (tc : TypeConfig)
    (base : gset nat) (h : nat) (st : Sel) :
  h ∈ depls st →
  (∀ h', h' ∈ depls st → h' ∈ dom (store st)) →
  (∀ h', h' ∈ existing st → h' ∈ depls st) →
  (∀ h', h' ∈ in_use st → h' ∉ base → h' ≠ h →
     configured abspath abs_nix_path tc (store st !!! h')) →
  recipe_inv abspath abs_nix_path tc base (accept abspath abs_nix_path tc h st).1.
Proof.
  intros Hh Hdom Hex Hrec.
  destruct (accept_configured abspath abs_nix_path tc h st (Hdom h Hh)) as [Hc Hother].
  pose proof (accept_spec abspath abs_nix_path tc h st) as Hsp.
  destruct (accept abspath abs_nix_path tc h st) as [st2 fl2]. simpl in *.
  destruct Hsp as (Hs & Hd & _ & He & _ & _ & Hi & _).
  split; [|split].
  - intros h'. rewrite Hd, Hs, dom_alter_L. apply Hdom.
  - intros h'. rewrite He, Hd. apply Hex.
  - intros h' Hin Hbase. destruct (decide (h' = h)) as [->|Hne]; [done|].
    rewrite Hother by done. apply Hrec; [|done..].
    rewrite Hi in Hin. apply elem_of_union in Hin as [?%elem_of_singleton|?]; done.
Qed.

Lemma recipe_inv_accept_inv (abspath abs_nix_path : string → string) (tc : TypeConfig)
    (base : gset nat) (h : nat) (st : Sel) :
  h ∈ depls st →
  recipe_inv abspath abs_nix_path tc base st →
  recipe_inv abspath abs_nix_path tc base (accept abspath abs_nix_path tc h st).1.
Proof.
  intros Hh (Hdom & Hex & Hrec). apply recipe_inv_accept; auto.
Qed.

Lemma configured_alter_machine (abspath abs_nix_path : string → string) (tc : TypeConfig)
    (f : Machine → Machine) (s : Store) (h h' : nat) :
  configured abspath abs_nix_path tc (alter (alter_machine f) h s !!! h')
  ↔ configured abspath abs_nix_path tc (s !!! h').
Proof.
  unfold configured.
  by rewrite (lookup_total_alter_proj nix_exprs), (lookup_total_alter_proj nix_path).
Qed.

Section Recipe.

Variables (config : Config) (check : nat → Machine → reply Machine).
Variables (nix_string abspath abs_nix_path : string → string).
Variables (type_name : string) (type_config : TypeConfig) (base : gset nat).

Let inv := recipe_inv abspath abs_nix_path type_config base.

Lemma inv_with_existing (l : list nat) (st : Sel) :
  (∀ h, h ∈ l → h ∈ depls st) → inv st → inv (with_existing l st).
Proof. intros Hl (Hdom & _ & Hrec). by split; [|split]. Qed.

Lemma inv_checked (f : Machine → Machine) (h : nat) (st : Sel) :
  inv st → inv (with_store (alter (alter_machine f) h (store st)) st).
Proof.
  intros (Hdom & Hex & Hrec). split; [|split]; simpl.
  - intros h'. rewrite dom_alter_L. apply Hdom.
  - done.
  - intros h' Hin Hbase. apply configured_alter_machine. by apply Hrec.
Qed.

Lemma select_step_recipe (st st' : Sel) (fl : flow) :
  inv st →
  select_step config check nix_string abspath abs_nix_path type_name type_config st
    = Ok (st', fl) →
  inv st'.
Proof.
  intros Hinv. unfold select_step.
  destruct (existing st) as [|h rest] eqn:Hexisting.
  - unfold create.
    destruct (get_new_deployment_name _ _) as [name| |]; simpl; [|done..].
    destruct Hinv as (Hdom & Hex & Hrec).
    match goal with
    | |- context [accept _ _ _ ?h ?st1] =>
        pose proof (recipe_inv_accept abspath abs_nix_path type_config base h st1) as Hacc;
        destruct (accept abspath abs_nix_path type_config h st1) as [st2 fl2]
    end.
    intros [= <- <-]. apply Hacc; simpl.
    + apply elem_of_app. right. by left.
    + intros h' [?%Hdom| ->%list_elem_of_singleton]%elem_of_app;
        rewrite dom_insert_L; [apply elem_of_union; by right|].
      apply elem_of_union. left. by apply elem_of_singleton.
    + rewrite Hexisting. by intros h' ?%elem_of_nil.
    + intros h' Hin Hbase Hne.
      rewrite lookup_total_insert_ne by done. by apply Hrec.
  - assert (h ∈ depls st) as Hh.
    { destruct Hinv as (_ & Hex & _). apply Hex. rewrite Hexisting. by left. }
    assert (∀ h', h' ∈ rest → h' ∈ depls st) as Hrest.
    { destruct Hinv as (_ & Hex & _). intros h' ?. apply Hex. rewrite Hexisting. by right. }
    destruct (decide (depl_state (store st !!! h) = UP)).
    + destruct (machines (store st !!! h) !! "machine") as [m|];
        cbn [subscript mbind result_bind]; [|done].
      destruct (check h m) as [m'|err]; cbn [of_reply mbind result_bind]; [|done].
      pose proof (inv_checked (λ _, m') h st Hinv) as Hinv1.
      set (st1 := with_store (alter (alter_machine (λ _, m')) h (store st)) st) in *.
      destruct (decide (depl_state (store st1 !!! h) ≠ UP)).
      * intros [= <- <-]. apply inv_with_existing; [|done].
        intros h'. rewrite sort_existing_perm. unfold st1. simpl. rewrite Hexisting.
        intros [->|?]%elem_of_cons; auto.
      * match goal with
        | |- context [accept _ _ _ h ?st1] =>
            pose proof (recipe_inv_accept_inv abspath abs_nix_path type_config base h st1)
              as Hacc;
            destruct (accept abspath abs_nix_path type_config h st1) as [st2 fl2]
        end.
        intros [= <- <-]. apply Hacc; [done|].
        by apply inv_with_existing.
    + destruct (decide (depl_state (store st !!! h) = MISSING)).
      * intros [= <- <-]. by apply inv_with_existing.
      * match goal with
        | |- context [accept _ _ _ h ?st1] =>
            pose proof (recipe_inv_accept_inv abspath abs_nix_path type_config base h st1)
              as Hacc;
            destruct (accept abspath abs_nix_path type_config h st1) as [st2 fl2]
        end.
        intros [= <- <-]. apply Hacc; [done|].
        by apply inv_with_existing.
Qed.

End Recipe.

Lemma select_loop_recipe config check nix_string abspath abs_nix_path type_name
    type_config (base : gset nat) (allowed : Z) :
  ∀ (fuel : nat) (st st' : Sel),
    recipe_inv abspath abs_nix_path type_config base st →
    select_loop config check nix_string abspath abs_nix_path fuel type_name type_config
      allowed st = Ok st' →
    recipe_inv abspath abs_nix_path type_config base st'.
Proof.
  induction fuel as [|fuel IH]; intros st st' Hinv; simpl.
  - destruct (decide (have st < allowed)); [done|]. by intros [= <-].
  - destruct (decide (have st < allowed)); [|by intros [= <-]].
    destruct (select_step _ _ _ _ _ _ _ st) as [[st1 fl]| |] eqn:Hstep; simpl; [|done..].
    pose proof (select_step_recipe _ _ _ _ _ _ _ _ _ _ _ Hinv Hstep) as Hinv1.
    destruct fl; [by apply IH|by intros [= <-]].
Qed.

(** X19. The loop of a machine type that has a policy entry leaves every
    deployment that it puts in use with the recipe of that entry:
    [nix_exprs] is the absolute path of [nixopsExpr] alone and [nix_path]
    holds the absolute paths of [nixPath] (none when the key is missing);
    the store still holds the whole inventory afterwards. *)
Theorem selected_carry_the_recipe config check nix_string abspath abs_nix_path mt
    (st st' : Sel) (type_name : string) (tc : TypeConfig) :
  systemTypes config !! type_name = Some tc →
  (∀ h, h ∈ depls st → h ∈ dom (store st)) →
  provision_type config check nix_string abspath abs_nix_path mt st type_name = Ok st' →
  (∀ h, h ∈ depls st' → h ∈ dom (store st'))
  ∧ ∀ h, h ∈ in_use st' → h ∉ in_use st →
      nix_exprs (store st' !!! h) = [abspath (nixopsExpr tc)]
      ∧ nix_path (store st' !!! h) = abs_nix_path <$> default [] (nixPath tc).
Proof.
  intros Htc Hdom. unfold provision_type. rewrite Htc.
  destruct (size_type mt type_name tc) as [[w a]| |]; simpl; [|done..].
  intros Hloop.
  apply (select_loop_recipe _ _ _ _ _ _ _ (in_use st)) in Hloop as (Hdom' & _ & Hrec).
  - split; [done|]. intros h Hin Hbase. by apply Hrec.
  - split; [done|]. split; simpl.
    + intros h. rewrite sort_existing_perm. by intros [_ ?]%list_elem_of_filter.
    + by intros h ? ?.
Qed.

Lemma selected_carry_the_recipe_witness :
  let config := Scenario.config_for "x86_64-linux:" (Scenario.policy None (Some 1) None None) in
  let mt : gmap string TypeStatus :=
    {[ "x86_64-linux:" := {| runnable := 25; lastActive := None |} ]} in
  let worker n := Scenario.deployment n "hydra-provisioned" "x86_64-linux:"
                    (Some (Scenario.machine UP None)) in
  let st := {| store := {[ 0%nat := worker "hydra-provisioned-0";
                           1%nat := worker "hydra-provisioned-1" ]};
               depls := [0%nat; 1%nat]; all_depls := [0%nat; 1%nat]; in_use := ∅;
               existing := []; have := 0; created := 0 |} in
  ∃ st',
    provision_type config Scenario.check Scenario.quoted id id mt st "x86_64-linux:" = Ok st'
    ∧ elements (in_use st') = [0%nat]
    ∧ nix_exprs (store st' !!! 0%nat) = ["/etc/hydra/worker.nix"]
    ∧ nix_path (store st' !!! 0%nat) = [].
Proof.
  intros config mt worker st. eexists. split; [vm_compute; reflexivity|].
  split; [reflexivity|].
  refine (proj2 (selected_carry_the_recipe config Scenario.check Scenario.quoted id id mt
                   st _ "x86_64-linux:" (Scenario.policy None (Some 1) None None)
                   eq_refl _ _) 0%nat _ _).
  - intros h Hh. apply elem_of_dom. unfold st. simpl.
    apply elem_of_cons in Hh as [->|Hh]; [by eexists|].
    apply elem_of_cons in Hh as [->|Hh]; [by eexists|].
    by apply elem_of_nil in Hh.
  - vm_compute. reflexivity.
  - apply elem_of_elements. vm_compute. apply list_elem_of_here.
  - apply not_elem_of_empty.
Defined.

(** *** [get_depl_time_left] *)

(** X20. The paid time left of a deployment is never negative and does
    not grow as the clock advances; it reaches a positive bound [k] exactly
    when the deployment has a machine whose next charge time is known, is
    not [0] and lies at least [k] seconds ahead.  So a deployment without
    machine or without charge time is never protected by paid time. *)
Theorem time_left_counts_down (now : Z) (depl : Deployment) :
  0 ≤ get_depl_time_left now depl
  ∧ (∀ now', now ≤ now' → get_depl_time_left now' depl ≤ get_depl_time_left now depl)
  ∧ (∀ k, 0 < k →
       (get_depl_time_left now depl >= k
        ↔ ∃ m t, machines depl !! "machine" = Some m
                 ∧ next_charge_time m = Some t ∧ t ≠ 0 ∧ t - now >= k)).
Proof.
  unfold get_depl_time_left.
  destruct (machines depl !! "machine") as [m|].
  - destruct (next_charge_time m) as [t|] eqn:Ht.
    + destruct (decide (t = 0)) as [->|Hne].
      * split; [done|]. split; [done|]. intros k Hk. split; [lia|].
        intros (m' & t' & [= <-] & Ht' & Hne & _). congruence.
      * split; [lia|]. split; [intros; lia|]. intros k Hk. split.
        -- intros Hge. exists m, t. repeat split; [done..|lia].
        -- intros (m' & t' & [= <-] & Ht' & _ & Hge).
           rewrite Ht in Ht'. injection Ht' as <-. lia.
    + split; [done|]. split; [done|]. intros k Hk. split; [lia|].
      intros (m' & t' & [= <-] & Ht' & _). congruence.
  - split; [done|]. split; [done|]. intros k Hk. split; [lia|].
    by intros (m' & t' & [=] & _).
Qed.
